(** * ShadowQuerySelector: shadow-aware DOM queries

    A shallow embedding of the two scripts of the repository

    - [src/querySelectorShadow.js]: the free functions [querySelectorShadow],
      [querySelectorAllShadowOptimized], [closestShadow],
      [querySelectorAllShadow] and the marker-gated override of
      [querySelector] / [querySelectorAll];
    - [src/unnamed/part_000]: the same four functions installed as prototype
      methods, and the implicit override of [querySelector] /
      [querySelectorAll].

    The host DOM is modelled as a finite tree of nodes.  Selector matching is
    the host's business: it is a parameter of the development ([host]). *)

From Stdlib Require Import List String Ascii Arith Lia Bool Permutation.
From Equations Require Import Equations.
Import ListNotations.

Open Scope string_scope.
Open Scope list_scope.

(** ** Selector strings

    Selectors are JavaScript strings.  A character of the model is one
    UTF-16 code unit below 256, so the model covers the selectors written
    with the code points U+0000 to U+00FF.  In that range the
    regular-expression class [\s] and [String.prototype.trim] agree on the
    white space: TAB, LF, VT, FF, CR, SPACE and the no-break space U+00A0
    (code units 9 to 13, 32 and 160).  The white space JavaScript knows
    above U+00FF (U+1680, U+2000 to U+200A, U+2028, U+2029, U+202F, U+205F,
    U+3000, U+FEFF) cannot be written in a selector of the model. *)

Module Selector.

Definition is_space (c : ascii) : bool :=
  let n := nat_of_ascii c in
  existsb (Nat.eqb n) [9; 10; 11; 12; 13; 32; 160].

(** [hay.includes(needle)] *)
Fixpoint includes (needle hay : string) : bool :=
  String.prefix needle hay ||
  match hay with
  | EmptyString => false
  | String _ rest => includes needle rest
  end.

Fixpoint drop (n : nat) (s : string) : string :=
  match n, s with
  | S k, String _ rest => drop k rest
  | _, _ => s
  end.

(** the greedy [\s*] *)
Fixpoint skip_spaces (s : string) : string :=
  match s with
  | String c rest => if is_space c then skip_spaces rest else s
  | EmptyString => EmptyString
  end.

Lemma drop_length n s : String.length (drop n s) <= String.length s.
Proof.
  revert s; induction n as [|n IH]; intros [|c s]; simpl; auto.
  all: try (specialize (IH s); lia).
Qed.

Lemma skip_spaces_length s : String.length (skip_spaces s) <= String.length s.
Proof.
  induction s as [|c s IH]; simpl; auto.
  destruct (is_space c); simpl; lia.
Qed.

(** [s.replace(/tok\s*/g, '')] for a literal, non-empty token [tok]: the
    scan goes left to right; at a position where [tok] starts, the token
    and the white space after it are dropped and the scan resumes behind
    them; elsewhere one character is kept. *)
Equations? remove_token (tok : string) (s : string) : string
  by wf (String.length s) lt :=
  remove_token tok EmptyString := EmptyString;
  remove_token tok (String c rest) with String.prefix tok (String c rest) := {
    | true := remove_token tok (skip_spaces (drop (String.length tok - 1) rest));
    | false := String c (remove_token tok rest) }.
Proof.
  pose proof (skip_spaces_length (drop (String.length tok - 1) rest)).
  pose proof (drop_length (String.length tok - 1) rest).
  simpl. lia.
Qed.

Definition trim_start (s : string) : string := skip_spaces s.

Fixpoint trim_end (s : string) : string :=
  match s with
  | EmptyString => EmptyString
  | String c rest =>
      match trim_end rest with
      | EmptyString => if is_space c then EmptyString else String c EmptyString
      | kept => String c kept
      end
  end.

(** [s.trim()] *)
Definition trim (s : string) : string := trim_end (trim_start s).

(** [needsShadowSearch], src/querySelectorShadow.js:128-130 *)
Definition needsShadowSearch (selector : string) : bool :=
  includes ":shadow" selector || includes ">>>" selector.

(** [cleanSelector], src/querySelectorShadow.js:133-135 *)
Definition cleanSelector (selector : string) : string :=
  trim (remove_token ">>>" (remove_token ":shadow" selector)).

End Selector.

Import Selector.

(** The usage shown at the head of src/querySelectorShadow.js. *)
Example needsShadowSearch_usage : needsShadowSearch ":shadow .some-class" = true.
Proof. reflexivity. Qed.

Example cleanSelector_usage :
  cleanSelector ":shadow .some-class, :shadow .another-class"
  = ".some-class, .another-class".
Proof. reflexivity. Qed.

Example cleanSelector_white_space : cleanSelector "x-widget >>>   .go  " = "x-widget .go".
Proof. reflexivity. Qed.

(** ** The host DOM

    A node is a document, an element or a shadow root.  [nid] stands for the
    identity of the JavaScript object ([===] compares objects, the model
    compares [nid]s); [nchildren] is the element children in document order;
    [nshadow] is the open shadow root attached to an element. *)

Inductive node_kind : Type := Document | Element | ShadowRoot.

Unset Elimination Schemes.
Inductive node : Type :=
  mkNode { nid : nat; nkind : node_kind; nshadow : option node; nchildren : list node }.
Set Elimination Schemes.

Definition is_element (n : node) : bool :=
  match nkind n with Element => true | _ => false end.

Definition is_shadow_root (n : node) : bool :=
  match nkind n with ShadowRoot => true | _ => false end.

(** [a === b] on nodes *)
Definition same_node (a b : node) : bool := Nat.eqb (nid a) (nid b).

(** [n.shadowRoot]: only elements have the accessor; on a document or a
    shadow root the property is undefined. *)
Definition shadowRoot (n : node) : option node :=
  if is_element n then nshadow n else None.

(** [n.children]: documents, elements and shadow roots all have it. *)
Definition children (n : node) : list node := nchildren n.

(** [n.matches]: the method exists on elements only. *)
Definition has_matches (n : node) : bool := is_element n.

Definition option_list {A} (o : option A) : list A :=
  match o with Some a => [a] | None => [] end.

(** The nodes one step below [n] in the composed tree: its shadow root, then
    its children. *)
Definition successors (n : node) : list node :=
  option_list (shadowRoot n) ++ children n.

(** Number of nodes of the composed tree below and including [n]. *)
Fixpoint csize (n : node) : nat :=
  match n with
  | mkNode _ _ sh cs =>
      S (match sh with Some s => csize s | None => 0 end
         + (fix sum (l : list node) : nat :=
              match l with [] => 0 | c :: l' => csize c + sum l' end) cs)
  end.

Definition weight (l : list node) : nat := list_sum (map csize l).

(** The light-DOM descendants of [n] in document order (preorder). *)
Fixpoint descendants (n : node) : list node :=
  match n with
  | mkNode _ _ _ cs =>
      (fix go (l : list node) : list node :=
         match l with [] => [] | c :: l' => (c :: descendants c) ++ go l' end) cs
  end.

(** The composed tree below and including [n], shadow tree of a host before
    its light children. *)
Fixpoint composed_nodes (n : node) : list node :=
  n :: match n with
       | mkNode _ k sh cs =>
           match k, sh with
           | Element, Some s => composed_nodes s
           | _, _ => []
           end
           ++ (fix go (l : list node) : list node :=
                 match l with [] => [] | c :: l' => composed_nodes c ++ go l' end) cs
       end.

(** The composed tree strictly below [n]. *)
Definition composed_descendants (n : node) : list node :=
  flat_map composed_nodes (successors n).

(** Node identities are pairwise distinct in the composed tree of [n]. *)
Definition unique_ids (n : node) : Prop := NoDup (map nid (composed_nodes n)).

Lemma csize_unfold n :
  csize n = S (weight (option_list (nshadow n)) + weight (nchildren n)).
Proof.
  destruct n as [i k sh cs]; simpl. f_equal. f_equal.
  - destruct sh; unfold weight; simpl; lia.
  - unfold weight. induction cs as [|c cs IH]; simpl; auto.
Qed.

Lemma descendants_unfold n :
  descendants n = flat_map (fun c => c :: descendants c) (children n).
Proof.
  destruct n as [i k sh cs]; unfold children; simpl.
  induction cs as [|c cs IH]; simpl; [reflexivity | now rewrite IH].
Qed.

Lemma composed_nodes_unfold n :
  composed_nodes n = n :: composed_descendants n.
Proof.
  destruct n as [i k sh cs]; unfold composed_descendants, successors, shadowRoot, children, is_element.
  simpl. f_equal. rewrite flat_map_app. f_equal.
  destruct k, sh; simpl; auto using app_nil_r.
Qed.

Lemma weight_app l1 l2 : weight (l1 ++ l2) = weight l1 + weight l2.
Proof. unfold weight. now rewrite map_app, list_sum_app. Qed.

Lemma weight_successors n : weight (successors n) < csize n.
Proof.
  rewrite csize_unfold. unfold successors, shadowRoot, children.
  rewrite weight_app. destruct (is_element n); simpl; lia.
Qed.

Lemma csize_pos n : 0 < csize n.
Proof. rewrite csize_unfold. lia. Qed.

Lemma weight_in n l : In n l -> csize n <= weight l.
Proof.
  unfold weight. induction l as [|a l IH]; simpl; [tauto|].
  intros [->|H]; [lia|]. specialize (IH H). lia.
Qed.

Lemma csize_successor n c : In c (successors n) -> csize c < csize n.
Proof.
  intros H. apply weight_in in H. pose proof (weight_successors n). lia.
Qed.

(** Induction on the composed tree. *)
Lemma node_ind (P : node -> Prop) :
  (forall n, (forall c, In c (successors n) -> P c) -> P n) ->
  forall n, P n.
Proof.
  intros step n.
  induction n as [n IH] using (induction_ltof1 _ csize).
  apply step. intros c Hc. apply IH. unfold ltof. now apply csize_successor.
Qed.

(** ** Results of evaluation

    A call either returns a value or throws.  Two errors occur: the
    [TypeError] of a property access or call on [null] / [undefined], and
    the [SyntaxError] the native selector parser raises. *)

Inductive js_error : Type := TypeError | SyntaxError.

Inductive outcome (A : Type) : Type :=
| Ok (a : A)
| Throw (e : js_error).
Arguments Ok {A} a.
Arguments Throw {A} e.

Definition omap {A B} (f : A -> B) (x : outcome A) : outcome B :=
  match x with Ok a => Ok (f a) | Throw e => Throw e end.

Definition obind {A B} (x : outcome A) (k : A -> outcome B) : outcome B :=
  match x with Ok a => k a | Throw e => Throw e end.

(** ** The native selector engine

    The engine is a parameter: which strings parse as selectors, and which
    elements a selector holds of.  Whether a selector holds of an element
    depends on the scoping root, the node that [:scope] stands for:
    [selector_holds h scope n sel] is the engine's answer for the element
    [n] with the scoping root [scope].  [root.querySelector(sel)] and
    [root.querySelectorAll(sel)] match with the scoping root [root];
    [n.matches(sel)] matches with the scoping root [n].  The universal
    selector is built in, since the scripts rely on it. *)

Record host : Type := {
  selector_valid : string -> bool;
  selector_holds : node -> node -> string -> bool }.

Section Native.
Variable h : host.

Definition native_valid (sel : string) : bool :=
  String.eqb sel "*" || selector_valid h sel.

(** [sel] holds of [n] when matched with the scoping root [scope] *)
Definition native_holds_from (scope n : node) (sel : string) : bool :=
  is_element n && (String.eqb sel "*" || selector_holds h scope n sel).

(** [sel] holds of [n] when matched as [n.matches(sel)] does: the element is
    its own scoping root *)
Definition native_holds (n : node) (sel : string) : bool :=
  native_holds_from n n sel.

(** [Element.prototype.matches] *)
Definition native_matches (n : node) (sel : string) : outcome bool :=
  if native_valid sel then Ok (native_holds n sel) else Throw SyntaxError.

(** the original [querySelectorAll] of documents, elements and fragments *)
Definition native_querySelectorAll (root : node) (sel : string) : outcome (list node) :=
  if native_valid sel
  then Ok (filter (fun n => native_holds_from root n sel) (descendants root))
  else Throw SyntaxError.

(** the original [querySelector] *)
Definition native_querySelector (root : node) (sel : string) : outcome (option node) :=
  if native_valid sel
  then Ok (find (fun n => native_holds_from root n sel) (descendants root))
  else Throw SyntaxError.

(** [n.matches(sel)] as a JavaScript expression: calling the method on a
    node that does not have it throws. *)
Definition call_matches (n : node) (sel : string) : outcome bool :=
  if has_matches n then native_matches n sel else Throw TypeError.

End Native.

(** ** The queue variant [querySelectorAllShadowOptimized]

    src/querySelectorShadow.js:40-64 and src/unnamed/part_000:60-85 (the two
    bodies are the same).  It uses [matches], [shadowRoot] and [children]
    only, none of which the scripts replace. *)

Section Queue.
Variable h : host.
Variable selector : string.
Variable root : node.

(** [if (current !== root && current.matches && current.matches(selector))
      results.push(current)] *)
Definition test_current (current : node) (results : list node) : outcome (list node) :=
  if negb (same_node current root) then
    if has_matches current then
      obind (call_matches h current selector)
            (fun hit => Ok (if hit then results ++ [current] else results))
    else Ok results
  else Ok results.

(** [if (current.shadowRoot) pending.push(current.shadowRoot)] *)
Definition push_shadow (pending : list node) (current : node) : list node :=
  match shadowRoot current with
  | Some s => pending ++ [s]
  | None => pending
  end.

(** [if (current.children) pending.push(...current.children)]; the
    collection object is truthy also when it is empty. *)
Definition push_children (pending : list node) (current : node) : list node :=
  pending ++ children current.

Lemma pushes_successors pending current :
  push_children (push_shadow pending current) current = pending ++ successors current.
Proof.
  unfold push_children, push_shadow, successors.
  destruct (shadowRoot current); simpl; now rewrite <- ?app_assoc.
Qed.

(** [while (pending.length > 0) { const current = pending.shift(); ... }] *)
Equations? while_pending (pending results : list node) : outcome (list node)
  by wf (weight pending) lt :=
  while_pending [] results := Ok results;
  while_pending (current :: rest) results with test_current current results := {
    | Throw e := Throw e;
    | Ok results' :=
        while_pending (push_children (push_shadow rest current) current) results' }.
Proof.
  rewrite pushes_successors, weight_app.
  pose proof (weight_successors current).
  unfold weight at 3. simpl. fold (weight rest). lia.
Qed.

End Queue.

Definition querySelectorAllShadowOptimized (h : host) (selector : string) (root : node)
  : outcome (list node) :=
  while_pending h selector root [root] [].

(** ** Calls that may not return

    [querySelectorShadow] and [querySelectorAllShadow] call themselves, and
    reach themselves again through the replaced [querySelector].  They are
    evaluated with a bound on the depth of nested calls: [None] says the
    bound was reached before the call returned. *)

Definition M (A : Type) : Type := option (outcome A).

Definition ret {A} (a : A) : M A := Some (Ok a).

Definition lift {A} (x : outcome A) : M A := Some x.

Definition bind {A B} (x : M A) (k : A -> M B) : M B :=
  match x with
  | None => None
  | Some (Throw e) => Some (Throw e)
  | Some (Ok a) => k a
  end.

Notation "x <- c1 ;; c2" := (bind c1 (fun x => c2))
  (at level 61, c1 at next level, right associativity).

(** ** Which script the page has loaded

    [Document.prototype] and [Element.prototype] carry the native
    [querySelector] / [querySelectorAll] until a script replaces them.
    Shadow roots are document fragments: their two methods live on
    [DocumentFragment.prototype], which neither script touches. *)

Inductive patch : Type :=
| Unpatched     (* no script loaded *)
| MarkerGated   (* src/querySelectorShadow.js *)
| Implicit.     (* src/unnamed/part_000 *)

Section Methods.
Variable h : host.
Variable p : patch.

(** the calls [querySelectorShadow(...)] and [querySelectorAllShadow(...)]
    made inside the bodies below *)
Variable self_first : string -> node -> M (option node).
Variable self_all : string -> node -> M (list node).

(** [originalQuerySelector], [originalDocQuerySelector] and
    [originalQuerySelectorAll], [originalDocQuerySelectorAll]
    (src/querySelectorShadow.js:122-125): the methods found on the two
    prototypes when the script is loaded; the engine has one implementation
    for elements and documents. *)
Local Abbreviation originalQuerySelector := (native_querySelector h).
Local Abbreviation originalQuerySelectorAll := (native_querySelectorAll h).

(** The function stored in [Document.prototype.querySelector] and
    [Element.prototype.querySelector].
    MarkerGated: src/querySelectorShadow.js:138-143 and 154-159.
    Implicit: src/unnamed/part_000:140-143. *)
Definition prototype_querySelector (this : node) (selector : string) : M (option node) :=
  match p with
  | Unpatched => lift (native_querySelector h this selector)
  | MarkerGated =>
      if needsShadowSearch selector
      then self_first (cleanSelector selector) this
      else lift (originalQuerySelector this selector)
  | Implicit => self_first selector this
  end.

(** The function stored in [Document.prototype.querySelectorAll] and
    [Element.prototype.querySelectorAll].
    MarkerGated: src/querySelectorShadow.js:146-151 and 162-167.
    Implicit: src/unnamed/part_000:146-149. *)
Definition prototype_querySelectorAll (this : node) (selector : string) : outcome (list node) :=
  match p with
  | Unpatched => native_querySelectorAll h this selector
  | MarkerGated =>
      if needsShadowSearch selector
      then querySelectorAllShadowOptimized h (cleanSelector selector) this
      else originalQuerySelectorAll this selector
  | Implicit => querySelectorAllShadowOptimized h selector this
  end.

(** [recv.querySelector(selector)]: property lookup, then the call *)
Definition call_querySelector (recv : node) (selector : string) : M (option node) :=
  if is_shadow_root recv
  then lift (native_querySelector h recv selector)
  else prototype_querySelector recv selector.

(** [recv.querySelectorAll(selector)] *)
Definition call_querySelectorAll (recv : node) (selector : string) : outcome (list node) :=
  if is_shadow_root recv
  then native_querySelectorAll h recv selector
  else prototype_querySelectorAll recv selector.

(** [for (const el of allElements) { if (el.shadowRoot) { element =
    querySelectorShadow(selector, el.shadowRoot); if (element) return
    element; } } return null;] *)
Fixpoint first_in_shadow_roots (selector : string) (allElements : list node)
  : M (option node) :=
  match allElements with
  | [] => ret None
  | el :: rest =>
      match shadowRoot el with
      | Some sr =>
          element <- self_first selector sr ;;
          match element with
          | Some e => ret (Some e)
          | None => first_in_shadow_roots selector rest
          end
      | None => first_in_shadow_roots selector rest
      end
  end.

(** body of [querySelectorShadow]: src/querySelectorShadow.js:14-32,
    src/unnamed/part_000:31-51 *)
Definition querySelectorShadow_body (selector : string) (root : node)
  : M (option node) :=
  element <- call_querySelector root selector ;;
  match element with
  | Some e => ret (Some e)
  | None =>
      allElements <- lift (call_querySelectorAll root "*") ;;
      first_in_shadow_roots selector allElements
  end.

(** [for (const el of allElements) { if (el.shadowRoot) {
    results.push(...querySelectorAllShadow(selector, el.shadowRoot)); } }
    return results;] *)
Fixpoint all_in_shadow_roots (selector : string) (allElements results : list node)
  : M (list node) :=
  match allElements with
  | [] => ret results
  | el :: rest =>
      match shadowRoot el with
      | Some sr =>
          found <- self_all selector sr ;;
          all_in_shadow_roots selector rest (results ++ found)
      | None => all_in_shadow_roots selector rest results
      end
  end.

(** body of [querySelectorAllShadow]: src/querySelectorShadow.js:96-114,
    src/unnamed/part_000:118-136 *)
Definition querySelectorAllShadow_body (selector : string) (root : node)
  : M (list node) :=
  own <- lift (call_querySelectorAll root selector) ;;
  let results := [] ++ own in
  allElements <- lift (call_querySelectorAll root "*") ;;
  all_in_shadow_roots selector allElements results.

End Methods.

(** [querySelectorShadow(selector, root)] evaluated with at most [fuel]
    nested calls of itself *)
Fixpoint querySelectorShadow (h : host) (p : patch) (fuel : nat)
  : string -> node -> M (option node) :=
  match fuel with
  | 0 => fun _ _ => None
  | S fuel' => querySelectorShadow_body h p (querySelectorShadow h p fuel')
  end.

(** [querySelectorAllShadow(selector, root)] *)
Fixpoint querySelectorAllShadow (h : host) (p : patch) (fuel : nat)
  : string -> node -> M (list node) :=
  match fuel with
  | 0 => fun _ _ => None
  | S fuel' => querySelectorAllShadow_body h p (querySelectorAllShadow h p fuel')
  end.

(** [recv.querySelector(selector)] as a page script sees it *)
Definition querySelector (h : host) (p : patch) (fuel : nat) (recv : node) (selector : string)
  : M (option node) :=
  call_querySelector h p (querySelectorShadow h p fuel) recv selector.

(** [recv.querySelectorAll(selector)] as a page script sees it *)
Definition querySelectorAll (h : host) (p : patch) (recv : node) (selector : string)
  : outcome (list node) :=
  call_querySelectorAll h p recv selector.

(** ** Walking upwards: [closestShadow]

    Parent links are recovered from the tree [doc] the element lives in. *)

Section Upward.
Variable doc : node.

(** [n.parentNode] *)
Definition parentNode (n : node) : option node :=
  find (fun q => existsb (same_node n) (children q)) (composed_nodes doc).

(** [n.parentElement]: the parent when it is an element, else [null] *)
Definition parentElement (n : node) : option node :=
  match parentNode n with
  | Some q => if is_element q then Some q else None
  | None => None
  end.

(** [sr.host] *)
Definition host_of (sr : node) : option node :=
  find (fun e => match shadowRoot e with
                 | Some s => same_node sr s
                 | None => false
                 end) (composed_nodes doc).

Fixpoint climb (steps : nat) (n : node) : node :=
  match steps with
  | 0 => n
  | S k => match parentNode n with Some q => climb k q | None => n end
  end.

(** [n.getRootNode()] *)
Definition getRootNode (n : node) : node := climb (csize doc) n.

(** [element.getRootNode()] where the variable [element] may hold [null] *)
Definition call_getRootNode (element : option node) : outcome node :=
  match element with
  | Some n => Ok (getRootNode n)
  | None => Throw TypeError
  end.

(** [if (!element && element.getRootNode() instanceof ShadowRoot)
      element = element.getRootNode().host;]
    The value of the variable [element] after the statement. *)
Definition cross_boundary (element : option node) : outcome (option node) :=
  match element with
  | Some _ => Ok element
  | None =>
      obind (call_getRootNode element) (fun r =>
      if is_shadow_root r
      then obind (call_getRootNode element) (fun r' => Ok (host_of r'))
      else Ok element)
  end.

(** [closestShadow(element, selector)]: src/querySelectorShadow.js:72-88,
    src/unnamed/part_000:93-109.  [fuel] bounds the iterations of the
    [while] loop. *)
Fixpoint closestShadow (h : host) (fuel : nat) (element : option node) (selector : string)
  : M (option node) :=
  match fuel with
  | 0 => None
  | S fuel' =>
      match element with
      | None => ret None
      | Some e =>
          hit <- lift (if has_matches e then call_matches h e selector else Ok false) ;;
          if hit then ret (Some e)
          else
            element' <- lift (cross_boundary (parentElement e)) ;;
            closestShadow h fuel' element' selector
      end
  end.

End Upward.

(** ** A sample page

<<
    #document                          0
      html                             1
        body                           2
          section.outer                3
            x-widget.go                4
              #shadow-root             5
                div                    6
                  button.go            7
                  x-inner              9
                    #shadow-root      10
                      span.go         11
            p                          8
>>
*)

Module Sample.

Definition element (id : nat) (sr : option node) (cs : list node) : node :=
  mkNode id Element sr cs.
Definition shadow_root (id : nat) (cs : list node) : node :=
  mkNode id ShadowRoot None cs.
Definition document (id : nat) (cs : list node) : node :=
  mkNode id Document None cs.

Definition span := element 11 None [].
Definition inner_root := shadow_root 10 [span].
Definition inner := element 9 (Some inner_root) [].
Definition button := element 7 None [].
Definition div := element 6 None [button; inner].
Definition widget_root := shadow_root 5 [div].
Definition widget := element 4 (Some widget_root) [].
Definition para := element 8 None [].
Definition section := element 3 None [widget; para].
Definition body := element 2 None [section].
Definition html := element 1 None [body].
Definition page := document 0 [html].

(** The selector engine of the sample: the selectors it parses, and the
    elements each holds of.  The selectors of [facts] do not depend on the
    scoping root; [:scope] holds of the scoping root only. *)
Definition facts : list (string * list nat) :=
  [ (".go", [4; 7; 11]);
    (".outer", [3]);
    ("button", [7]);
    ("p", [8]);
    ("[title='>>>']", [8]);
    ("[title='']", []);
    (".absent", []) ].

Definition engine : host := {|
  selector_valid := fun sel =>
    existsb (fun f => String.eqb sel (fst f)) facts || String.eqb sel ":scope";
  selector_holds := fun scope n sel =>
    existsb (fun f => String.eqb sel (fst f) && existsb (Nat.eqb (nid n)) (snd f)) facts
    || (String.eqb sel ":scope" && same_node n scope) |}.

End Sample.

(** ** Breadth-first level order of the composed tree

    Written without a queue: the frontier of depth [k + 1] is the successors
    of the frontier of depth [k], and the order is the frontiers one after
    the other.  A composed tree of [csize root] nodes has fewer than
    [csize root + 1] levels. *)

Fixpoint levels (depth : nat) (frontier : list node) : list node :=
  match depth with
  | 0 => []
  | S d => frontier ++ levels d (flat_map successors frontier)
  end.

Definition level_order (root : node) : list node := levels (csize root) [root].

(** The nodes the queue variant reports for a selector that parses: the
    elements other than the root that the selector holds of. *)
Definition reported (h : host) (selector : string) (root n : node) : bool :=
  negb (same_node n root) && native_holds h n selector.

(** ** Selectors that do not depend on the scoping root

    A selector without [:scope] holds of the same elements whatever the
    scoping root: [root.querySelectorAll(sel)] then finds the descendants of
    [root] that [matches(sel)] accepts.  A selector with [:scope] does not:
    [root.querySelectorAll(':scope')] is empty, while every element
    [matches(':scope')]. *)

Definition scope_free (h : host) (sel : string) : Prop :=
  forall scope n, selector_holds h scope n sel = selector_holds h n n sel.

(** ** What the recursive variants look at

    [searched root x]: [x] is a light-DOM descendant of [root], or is
    searched from the shadow root of a light-DOM descendant of [root]. *)

Inductive searched : node -> node -> Prop :=
| searched_light root x :
    In x (descendants root) -> searched root x
| searched_shadow root el sr x :
    In el (descendants root) -> shadowRoot el = Some sr -> searched sr x ->
    searched root x.

(** In a DOM tree a shadow root is a document fragment, not an element. *)
Definition shadow_roots_are_fragments (root : node) : Prop :=
  forall n sr, In n (composed_nodes root) -> shadowRoot n = Some sr ->
               is_element sr = false.

(** Counting identities: every identity occurs in [l1] at most as often as
    in [l2]. *)
Definition ids_within (l1 l2 : list node) : Prop :=
  forall i, count_occ Nat.eq_dec (map nid l1) i <= count_occ Nat.eq_dec (map nid l2) i.

(** The shadow tree hanging off [el], and the light tree below [n]. *)
Definition shadow_tree (el : node) : list node :=
  flat_map composed_nodes (option_list (shadowRoot el)).

Definition light_tree (n : node) : list node :=
  flat_map composed_nodes (children n).

(** The [k]-th step of the [parentElement] chain from [n]: [n] itself, its
    parent element, the parent element of that, ... *)
Fixpoint ancestor (doc : node) (k : nat) (n : node) : option node :=
  match k with
  | 0 => Some n
  | S k' =>
      match parentElement doc n with
      | Some q => ancestor doc k' q
      | None => None
      end
  end.

(** In a DOM tree what [shadowRoot] returns is a shadow root. *)
Definition shadow_roots_typed (root : node) : Prop :=
  forall n sr, In n (composed_nodes root) -> shadowRoot n = Some sr ->
               is_shadow_root sr = true.

(** * Properties *)

(** ** The queue variant *)

Section QueueFacts.
Variable h : host.
Variable selector : string.
Variable root : node.

Local Abbreviation loop := (while_pending h selector root).
Local Abbreviation test := (test_current h selector root).

Lemma while_pending_nil results : loop [] results = Ok results.
Proof. now simp while_pending. Qed.

Lemma while_pending_cons current rest results :
  loop (current :: rest) results =
  obind (test current results) (fun results' => loop (rest ++ successors current) results').
Proof.
  simp while_pending.
  destruct (test current results) as [r'|e]; simpl; [|reflexivity].
  now rewrite pushes_successors.
Qed.

Lemma test_current_cases current results :
  test current results = Ok results
  \/ (test current results = Ok (results ++ [current])
      /\ reported h selector root current = true /\ native_valid h selector = true)
  \/ (test current results = Throw SyntaxError
      /\ has_matches current = true /\ native_valid h selector = false).
Proof.
  unfold test_current, reported, call_matches, native_matches, native_holds, native_holds_from, has_matches.
  destruct (same_node current root); simpl; auto.
  destruct (is_element current); simpl; auto.
  destruct (native_valid h selector); simpl; auto.
  destruct (String.eqb selector "*" || selector_holds h current current selector); simpl; auto.
Qed.

Lemma test_current_valid current results :
  native_valid h selector = true ->
  test current results =
  Ok (if reported h selector root current then results ++ [current] else results).
Proof.
  intros V.
  unfold test_current, reported, call_matches, native_matches, native_holds, native_holds_from, has_matches.
  rewrite V.
  destruct (same_node current root); simpl; auto.
  destruct (is_element current); simpl; auto.
Qed.

(** A node without [matches] is passed over: no call, no error, results
    untouched, whatever the selector. *)
Lemma test_current_skips current results :
  has_matches current = false -> test current results = Ok results.
Proof.
  intros H. unfold test_current. rewrite H. now destruct (negb _).
Qed.

(** Induction along the iterations of the loop. *)
Lemma while_pending_induction (P : list node -> list node -> Prop) :
  (forall results, P [] results) ->
  (forall current rest results,
      (forall results', test current results = Ok results' ->
                        P (rest ++ successors current) results') ->
      P (current :: rest) results) ->
  forall pending results, P pending results.
Proof.
  intros Hnil Hcons pending.
  induction pending as [pending IH] using (induction_ltof1 _ weight).
  destruct pending as [|current rest]; intros results; [apply Hnil|].
  apply Hcons. intros results' _. apply IH.
  unfold ltof. rewrite weight_app. pose proof (weight_successors current).
  unfold weight at 3. simpl. fold (weight rest). lia.
Qed.

Lemma while_pending_no_TypeError pending results :
  loop pending results <> Throw TypeError.
Proof.
  revert pending results. apply while_pending_induction.
  - intros results. now rewrite while_pending_nil.
  - intros current rest results IH. rewrite while_pending_cons.
    destruct (test_current_cases current results) as [E|[(E & _)|(E & _)]];
      rewrite E; simpl; auto; discriminate.
Qed.

Lemma while_pending_total pending results :
  native_valid h selector = true -> exists res, loop pending results = Ok res.
Proof.
  intros V. revert pending results. apply while_pending_induction.
  - intros results. exists results. apply while_pending_nil.
  - intros current rest results IH. rewrite while_pending_cons.
    rewrite (test_current_valid _ _ V) in *. simpl. now apply IH.
Qed.

(** Where reported nodes come from. *)
Lemma while_pending_origin pending results res :
  loop pending results = Ok res ->
  forall x, In x res ->
    In x results
    \/ (same_node x root = false /\ is_element x = true
        /\ exists y, In y pending /\ In x (composed_nodes y)).
Proof.
  revert pending results res. 
  apply (while_pending_induction
           (fun pending results => forall res, loop pending results = Ok res ->
              forall x, In x res -> In x results
              \/ (same_node x root = false /\ is_element x = true
                  /\ exists y, In y pending /\ In x (composed_nodes y)))).
  - intros results res. rewrite while_pending_nil. intros [= <-]. auto.
  - intros current rest results IH res. rewrite while_pending_cons.
    destruct (test_current_cases current results) as [E|[(E & R & _)|(E & _)]];
      rewrite E; simpl; [| |discriminate]; intros L x Hx;
      destruct (IH _ E _ L x Hx) as [Hr|(S1 & S2 & y & Hy & Hxy)].
    + auto.
    + right. repeat split; auto. apply in_app_or in Hy. destruct Hy as [Hy|Hy].
      * exists y. simpl; auto.
      * exists current. split; [simpl; auto|].
        rewrite composed_nodes_unfold. right. apply in_flat_map. eauto.
    + apply in_app_or in Hr. destruct Hr as [Hr|[<-|[]]]; auto.
      right. unfold reported, native_holds, native_holds_from in R.
      apply andb_true_iff in R. destruct R as [R1 R2].
      apply andb_true_iff in R2. destruct R2 as [R2 _].
      apply negb_true_iff in R1. repeat split; auto.
      exists current. split; [simpl; auto|]. rewrite composed_nodes_unfold. simpl; auto.
    + right. repeat split; auto. apply in_app_or in Hy. destruct Hy as [Hy|Hy].
      * exists y. simpl; auto.
      * exists current. split; [simpl; auto|].
        rewrite composed_nodes_unfold. right. apply in_flat_map. eauto.
Qed.

(** One round of the queue. *)
Lemma while_pending_round front back results :
  native_valid h selector = true ->
  loop (front ++ back) results =
  loop (back ++ flat_map successors front)
       (results ++ filter (reported h selector root) front).
Proof.
  intros V. revert back results.
  induction front as [|c front IH]; intros back results; simpl.
  - now rewrite !app_nil_r.
  - rewrite while_pending_cons, (test_current_valid _ _ V). simpl.
    rewrite <- app_assoc, IH, <- app_assoc.
    destruct (reported h selector root c); simpl; [|reflexivity].
    now rewrite <- app_assoc.
Qed.

Lemma test_current_invalid current results :
  native_valid h selector = false ->
  test current results =
  if negb (same_node current root) && has_matches current
  then Throw SyntaxError else Ok results.
Proof.
  intros V. unfold test_current, call_matches, native_matches. rewrite V.
  destruct (same_node current root); simpl; [reflexivity|].
  destruct (has_matches current); reflexivity.
Qed.

Lemma while_pending_round_invalid front back results :
  native_valid h selector = false ->
  loop (front ++ back) results =
  if existsb (fun n => negb (same_node n root) && has_matches n) front
  then Throw SyntaxError
  else loop (back ++ flat_map successors front) results.
Proof.
  intros V. revert back results.
  induction front as [|c front IH]; intros back results; simpl.
  - now rewrite app_nil_r.
  - rewrite while_pending_cons, (test_current_invalid _ _ V).
    destruct (negb (same_node c root) && has_matches c); simpl; [reflexivity|].
    now rewrite <- app_assoc, IH, <- app_assoc.
Qed.

End QueueFacts.

Lemma weight_zero pending : weight pending = 0 -> pending = [].
Proof.
  destruct pending as [|c rest]; [reflexivity|].
  unfold weight; simpl. pose proof (csize_pos c). lia.
Qed.

Lemma weight_cons c rest : weight (c :: rest) = csize c + weight rest.
Proof. reflexivity. Qed.

Lemma weight_flat_successors frontier :
  weight (flat_map successors frontier) + List.length frontier <= weight frontier.
Proof.
  induction frontier as [|c rest IH]; [unfold weight; simpl; lia|].
  cbn [flat_map List.length]. rewrite weight_app, weight_cons.
  pose proof (weight_successors c). lia.
Qed.

Lemma weight_next_frontier frontier :
  frontier <> [] -> weight (flat_map successors frontier) < weight frontier.
Proof.
  intros N. pose proof (weight_flat_successors frontier).
  destruct frontier; [congruence|]. simpl List.length in *. lia.
Qed.

Lemma levels_nil depth : levels depth [] = [].
Proof. induction depth as [|d IH]; simpl; auto. Qed.

Lemma while_pending_levels h selector root depth pending results :
  native_valid h selector = true ->
  weight pending <= depth ->
  while_pending h selector root pending results =
  Ok (results ++ filter (reported h selector root) (levels depth pending)).
Proof.
  intros V. revert pending results.
  induction depth as [|d IH]; intros pending results B.
  - assert (pending = []) as -> by (apply weight_zero; lia).
    rewrite while_pending_nil. simpl. now rewrite app_nil_r.
  - destruct pending as [|c rest].
    + rewrite while_pending_nil. simpl. now rewrite levels_nil, app_nil_r.
    + remember (c :: rest) as q eqn:Q.
      assert (q <> []) as N by (subst; congruence).
      pose proof (weight_next_frontier q N) as L.
      rewrite <- (app_nil_r q) at 1.
      rewrite while_pending_round by assumption. simpl app.
      rewrite IH by lia. simpl levels.
      now rewrite filter_app, app_assoc.
Qed.

(** C8.  For every root and every selector the native engine parses, the
    queue variant [querySelectorAllShadowOptimized] returns the elements
    other than the root that the selector holds of, in breadth-first level
    order of the composed tree: the root's level first, then level by level
    the successors of the previous level, where the successors of a node are
    its shadow root (if any) followed by its children. *)
Theorem queue_variant_level_order h selector root :
  native_valid h selector = true ->
  querySelectorAllShadowOptimized h selector root =
  Ok (filter (reported h selector root) (level_order root)).
Proof.
  intros V. unfold querySelectorAllShadowOptimized, level_order.
  rewrite (while_pending_levels h selector root (csize root)) by
    (auto; unfold weight; simpl; lia).
  reflexivity.
Qed.

Lemma queue_variant_level_order_witness :
  querySelectorAllShadowOptimized Sample.engine ".go" Sample.page =
  Ok (filter (reported Sample.engine ".go" Sample.page) (level_order Sample.page)).
Proof. apply queue_variant_level_order. reflexivity. Defined.

(** The level order is not the document order of the composed tree: on the
    sample page [p] (8) is reported before the content of the widget's
    shadow tree, although it follows the widget in the document. *)
Example level_order_is_not_document_order :
  omap (map nid) (querySelectorAllShadowOptimized Sample.engine "*" Sample.page)
  = Ok [1; 2; 3; 4; 8; 6; 7; 9; 11]
  /\ map nid (filter is_element (composed_descendants Sample.page))
     = [1; 2; 3; 4; 6; 7; 9; 11; 8].
Proof. split; reflexivity. Qed.

Lemma while_pending_levels_invalid h selector root depth pending results :
  native_valid h selector = false ->
  weight pending <= depth ->
  while_pending h selector root pending results =
  if existsb (fun n => negb (same_node n root) && has_matches n) (levels depth pending)
  then Throw SyntaxError else Ok results.
Proof.
  intros V. revert pending results.
  induction depth as [|d IH]; intros pending results B.
  - assert (pending = []) as -> by (apply weight_zero; lia).
    now rewrite while_pending_nil.
  - destruct pending as [|c rest].
    + rewrite while_pending_nil. simpl. now rewrite levels_nil.
    + remember (c :: rest) as q eqn:Q.
      assert (q <> []) as N by (subst; congruence).
      pose proof (weight_next_frontier q N) as L.
      rewrite <- (app_nil_r q) at 1.
      rewrite while_pending_round_invalid by assumption. simpl app.
      simpl levels. rewrite existsb_app.
      destruct (existsb _ q); simpl; [reflexivity|].
      apply IH. lia.
Qed.

(** X2.  A selector the native engine rejects: the queue variant ends in
    the engine's [SyntaxError], raised by the first [matches] call, exactly
    when the composed tree holds an element other than the root; with none
    it returns the empty sequence. *)
Theorem queue_variant_invalid_selector h selector root :
  native_valid h selector = false ->
  querySelectorAllShadowOptimized h selector root =
  if existsb (fun n => negb (same_node n root) && has_matches n) (level_order root)
  then Throw SyntaxError else Ok [].
Proof.
  intros V. unfold querySelectorAllShadowOptimized, level_order.
  apply while_pending_levels_invalid; [assumption|].
  unfold weight; simpl; lia.
Qed.

(** C9.  The queue variant never fails on a node that has no [matches]
    method: visiting such a node (a shadow root, a document) leaves the
    results as they are and raises nothing, for every selector -- the native
    predicate is not called on it; the traversal as a whole never ends in the
    [TypeError] such a call would raise, and reports elements only. *)
Theorem queue_variant_skips_without_error h selector root :
  (forall current results,
      has_matches current = false ->
      test_current h selector root current results = Ok results)
  /\ querySelectorAllShadowOptimized h selector root <> Throw TypeError
  /\ (forall res, querySelectorAllShadowOptimized h selector root = Ok res ->
                  Forall (fun n => has_matches n = true) res).
Proof.
  split; [|split].
  - intros current results. apply test_current_skips.
  - apply while_pending_no_TypeError.
  - intros res E. apply Forall_forall. intros x Hx.
    destruct (while_pending_origin _ _ _ _ _ _ E x Hx) as [[]|(_ & El & _)].
    exact El.
Qed.

Lemma queue_variant_skips_without_error_witness :
  test_current Sample.engine ".go" Sample.page Sample.widget_root [Sample.widget]
  = Ok [Sample.widget]
  /\ querySelectorAllShadowOptimized Sample.engine ".go" Sample.page <> Throw TypeError.
Proof.
  destruct (queue_variant_skips_without_error Sample.engine ".go" Sample.page)
    as (skip & no_error & _).
  split; [apply skip; reflexivity | exact no_error].
Defined.

(** ** The composed tree *)

Lemma in_successors_composed n c :
  In c (successors n) -> In c (composed_descendants n).
Proof.
  intros H. apply in_flat_map. exists c. split; [assumption|].
  rewrite composed_nodes_unfold. now left.
Qed.

Lemma in_children_successors n c : In c (children n) -> In c (successors n).
Proof. intros H. apply in_or_app. now right. Qed.

Lemma shadowRoot_successor n sr : shadowRoot n = Some sr -> In sr (successors n).
Proof. intros H. apply in_or_app. left. rewrite H. now left. Qed.

Lemma composed_nodes_trans z y x :
  In y (composed_nodes z) -> In x (composed_nodes y) -> In x (composed_nodes z).
Proof.
  revert y x. induction z as [z IH] using node_ind. intros y x Hy Hx.
  rewrite composed_nodes_unfold in Hy. destruct Hy as [<-|Hy]; [assumption|].
  apply in_flat_map in Hy. destruct Hy as (c & Hc & Hy).
  rewrite composed_nodes_unfold. right. apply in_flat_map. exists c.
  split; [assumption|]. now apply (IH c Hc y x).
Qed.

Lemma composed_descendants_trans z y x :
  In y (composed_descendants z) -> In x (composed_nodes y) ->
  In x (composed_descendants z).
Proof.
  intros Hy Hx. apply in_flat_map in Hy. destruct Hy as (c & Hc & Hy).
  apply in_flat_map. exists c. split; [assumption|].
  now apply composed_nodes_trans with y.
Qed.

Lemma descendants_composed n x :
  In x (descendants n) -> In x (composed_descendants n).
Proof.
  revert x. induction n as [n IH] using node_ind. intros x Hx.
  rewrite descendants_unfold in Hx. apply in_flat_map in Hx.
  destruct Hx as (c & Hc & Hx). apply in_children_successors in Hc.
  apply in_flat_map. exists c. split; [assumption|].
  rewrite composed_nodes_unfold. destruct Hx as [<-|Hx]; [now left|right].
  now apply IH.
Qed.

Lemma composed_descendant_smaller n x :
  In x (composed_descendants n) -> csize x < csize n.
Proof.
  revert x. induction n as [n IH] using node_ind. intros x Hx.
  apply in_flat_map in Hx. destruct Hx as (c & Hc & Hx).
  pose proof (csize_successor n c Hc).
  rewrite composed_nodes_unfold in Hx. destruct Hx as [<-|Hx]; [assumption|].
  specialize (IH c Hc x Hx). lia.
Qed.

Lemma unique_ids_descendant root x :
  unique_ids root -> In x (composed_descendants root) -> nid x <> nid root.
Proof.
  unfold unique_ids. rewrite composed_nodes_unfold. simpl. intros U Hx E.
  apply NoDup_cons_iff in U. destruct U as [U _]. apply U.
  rewrite <- E. now apply in_map.
Qed.

Lemma same_node_refl n : same_node n n = true.
Proof. apply Nat.eqb_refl. Qed.

(** What the queue variant reports lies strictly below the root. *)
Lemma queue_variant_reports_below h selector root res :
  querySelectorAllShadowOptimized h selector root = Ok res ->
  forall x, In x res ->
    In x (composed_descendants root) /\ same_node x root = false /\ is_element x = true.
Proof.
  intros E x Hx.
  destruct (while_pending_origin _ _ _ _ _ _ E x Hx) as [[]|(S1 & S2 & y & [<-|[]] & Hy)].
  repeat split; auto.
  rewrite composed_nodes_unfold in Hy. destruct Hy as [<-|Hy]; [|assumption].
  rewrite same_node_refl in S1. discriminate.
Qed.

(** What [recv.querySelectorAll(selector)] returns lies strictly below
    [recv], whichever script is loaded. *)
Lemma call_querySelectorAll_below h p recv selector res :
  call_querySelectorAll h p recv selector = Ok res ->
  forall x, In x res -> In x (composed_descendants recv).
Proof.
  assert (forall sel r, native_querySelectorAll h recv sel = Ok r ->
            forall x, In x r -> In x (composed_descendants recv)) as Native.
  { unfold native_querySelectorAll. intros sel r.
    destruct (native_valid h sel); [|discriminate]. intros [= <-] x Hx.
    apply filter_In in Hx. now apply descendants_composed. }
  assert (forall sel r, querySelectorAllShadowOptimized h sel recv = Ok r ->
            forall x, In x r -> In x (composed_descendants recv)) as Queue.
  { intros sel r E x Hx. now apply (queue_variant_reports_below _ _ _ _ E). }
  unfold call_querySelectorAll, prototype_querySelectorAll.
  destruct (is_shadow_root recv); [apply Native|].
  destruct p; [apply Native| |apply Queue].
  destruct (needsShadowSearch selector); [apply Queue|apply Native].
Qed.

Lemma sample_page_unique_ids : unique_ids Sample.page.
Proof.
  unfold unique_ids. simpl. repeat constructor; simpl; intuition discriminate.
Qed.

Lemma sample_widget_unique_ids : unique_ids Sample.widget.
Proof.
  unfold unique_ids. simpl. repeat constructor; simpl; intuition discriminate.
Qed.

(** ** The queue variant finds every match once *)

Lemma levels_complete depth :
  forall frontier y x,
    weight frontier <= depth -> In y frontier -> In x (composed_nodes y) ->
    In x (levels depth frontier).
Proof.
  induction depth as [|d IH]; intros frontier y x B Hy Hx.
  - assert (frontier = []) as -> by (apply weight_zero; lia). destruct Hy.
  - simpl. apply in_or_app.
    rewrite composed_nodes_unfold in Hx. destruct Hx as [<-|Hx]; [now left|right].
    apply in_flat_map in Hx. destruct Hx as (c & Hc & Hx).
    apply (IH _ c x); [| |assumption].
    + assert (frontier <> []) as N by (intros ->; destruct Hy).
      pose proof (weight_next_frontier frontier N). lia.
    + apply in_flat_map. eauto.
Qed.

Lemma flat_map_flat_map {A B C} (f : B -> list C) (g : A -> list B) l :
  flat_map f (flat_map g l) = flat_map (fun a => flat_map f (g a)) l.
Proof.
  induction l as [|a l IH]; simpl; [reflexivity|].
  now rewrite flat_map_app, IH.
Qed.

Lemma flat_map_cons_permutation {A} (f : A -> list A) l :
  Permutation (flat_map (fun a => a :: f a) l) (l ++ flat_map f l).
Proof.
  induction l as [|a l IH]; simpl; [constructor|].
  constructor. rewrite IH.
  rewrite !app_assoc. apply Permutation_app_tail, Permutation_app_comm.
Qed.

Lemma levels_permutation depth :
  forall frontier,
    weight frontier <= depth ->
    Permutation (levels depth frontier) (flat_map composed_nodes frontier).
Proof.
  induction depth as [|d IH]; intros frontier B.
  - assert (frontier = []) as -> by (apply weight_zero; lia). constructor.
  - simpl.
    rewrite (flat_map_ext composed_nodes
               (fun n => n :: flat_map composed_nodes (successors n)))
      by (intros n; apply composed_nodes_unfold).
    rewrite flat_map_cons_permutation, <- flat_map_flat_map.
    apply Permutation_app_head.
    destruct frontier as [|c rest]; [rewrite levels_nil; constructor|].
    apply IH.
    assert (c :: rest <> []) as N by congruence.
    pose proof (weight_next_frontier _ N). lia.
Qed.

Lemma level_order_permutation root :
  Permutation (level_order root) (composed_nodes root).
Proof.
  unfold level_order. rewrite levels_permutation.
  - simpl. now rewrite app_nil_r.
  - unfold weight; simpl; lia.
Qed.

Lemma NoDup_map_filter {A B} (f : A -> B) (keep : A -> bool) l :
  NoDup (map f l) -> NoDup (map f (filter keep l)).
Proof.
  induction l as [|a l IH]; simpl; [auto|]. intros N.
  apply NoDup_cons_iff in N. destruct N as [Na N].
  destruct (keep a); simpl; [|auto].
  constructor; [|auto]. intros Hin. apply Na.
  apply in_map_iff in Hin. destruct Hin as (b & E & Hb).
  apply filter_In in Hb. rewrite <- E. now apply in_map.
Qed.

Lemma queue_variant_finds_once h selector root x :
  unique_ids root ->
  In x (composed_descendants root) ->
  native_matches h x selector = Ok true ->
  exists res,
    querySelectorAllShadowOptimized h selector root = Ok res
    /\ In x res
    /\ NoDup (map nid res).
Proof.
  intros U Below Hit.
  assert (native_valid h selector = true /\ native_holds h x selector = true) as (V & Holds).
  { unfold native_matches in Hit. destruct (native_valid h selector); [|discriminate].
    injection Hit as Hit. auto. }
  unfold querySelectorAllShadowOptimized.
  rewrite (while_pending_levels h selector root (csize root)) by
    (auto; unfold weight; simpl; lia).
  fold (level_order root). simpl app. eexists. split; [reflexivity|]. split.
  - apply filter_In. split.
    + apply (levels_complete _ [root] root x); [unfold weight; simpl; lia|now left|].
      rewrite composed_nodes_unfold. now right.
    + unfold reported. rewrite Holds, andb_true_r. apply negb_true_iff.
      apply Nat.eqb_neq. now apply unique_ids_descendant.
  - apply NoDup_map_filter.
    apply (Permutation_NoDup (l := map nid (composed_nodes root))); [|exact U].
    apply Permutation_map. symmetry. apply level_order_permutation.
Qed.

(** X1.  With pairwise distinct identities the queue variant
    [querySelectorAllShadowOptimized] reports every element strictly below
    the root that the selector holds of, and reports it exactly once -- at
    every depth of shadow nesting, the root's own shadow tree included. *)
Theorem queue_variant_complete_once h selector root x :
  unique_ids root ->
  In x (composed_descendants root) ->
  native_matches h x selector = Ok true ->
  exists res,
    querySelectorAllShadowOptimized h selector root = Ok res
    /\ In x res
    /\ NoDup (map nid res)
    /\ count_occ Nat.eq_dec (map nid res) (nid x) = 1.
Proof.
  intros U Below Hit.
  destruct (queue_variant_finds_once h selector root x U Below Hit) as (res & E & Hin & N).
  exists res. repeat split; auto.
  apply NoDup_count_occ'; [assumption|]. now apply in_map.
Qed.

Lemma queue_variant_complete_once_witness :
  exists res,
    querySelectorAllShadowOptimized Sample.engine ".go" Sample.page = Ok res
    /\ In Sample.span res
    /\ NoDup (map nid res)
    /\ count_occ Nat.eq_dec (map nid res) (nid Sample.span) = 1.
Proof.
  apply queue_variant_complete_once.
  - apply sample_page_unique_ids.
  - simpl. auto 20.
  - reflexivity.
Defined.

(** ** The recursive variant [querySelectorAllShadow] *)

Lemma all_in_shadow_roots_below self selector root :
  (forall sr res, self selector sr = Some (Ok res) ->
                  forall x, In x res -> In x (composed_descendants sr)) ->
  forall allElements results res,
    (forall el, In el allElements -> In el (composed_descendants root)) ->
    (forall x, In x results -> In x (composed_descendants root)) ->
    all_in_shadow_roots self selector allElements results = Some (Ok res) ->
    forall x, In x res -> In x (composed_descendants root).
Proof.
  intros Self. induction allElements as [|el rest IH]; intros results res Hall Hres; simpl.
  - intros [= <-]. assumption.
  - destruct (shadowRoot el) as [sr|] eqn:SR.
    + destruct (self selector sr) as [[found|e]|] eqn:F; simpl; try discriminate.
      apply IH; [intros; apply Hall; now right|].
      intros x Hx. apply in_app_or in Hx. destruct Hx as [Hx|Hx]; [now apply Hres|].
      apply composed_descendants_trans with sr.
      * apply composed_descendants_trans with el; [apply Hall; now left|].
        rewrite composed_nodes_unfold. right.
        apply in_successors_composed. now apply shadowRoot_successor.
      * rewrite composed_nodes_unfold. right. now apply (Self sr found).
    + apply IH; [intros; apply Hall; now right|assumption].
Qed.

Lemma querySelectorAllShadow_below h p fuel :
  forall selector root res,
    querySelectorAllShadow h p fuel selector root = Some (Ok res) ->
    forall x, In x res -> In x (composed_descendants root).
Proof.
  induction fuel as [|fuel IH]; intros selector root res; simpl; [discriminate|].
  unfold querySelectorAllShadow_body, lift. simpl bind.
  destruct (call_querySelectorAll h p root selector) as [own|e] eqn:Own; [|discriminate].
  destruct (call_querySelectorAll h p root "*") as [allElements|e] eqn:All; [|discriminate].
  apply all_in_shadow_roots_below.
  - intros sr r. apply IH.
  - apply (call_querySelectorAll_below _ _ _ _ _ All).
  - apply (call_querySelectorAll_below _ _ _ _ _ Own).
Qed.

Lemma all_in_shadow_roots_returns self selector :
  forall allElements results,
    (forall el sr, In el allElements -> shadowRoot el = Some sr ->
                   exists r, self selector sr = Some r) ->
    exists r, all_in_shadow_roots self selector allElements results = Some r.
Proof.
  induction allElements as [|el rest IH]; intros results Self; simpl.
  - eexists; reflexivity.
  - destruct (shadowRoot el) as [sr|] eqn:SR.
    + destruct (Self el sr (or_introl eq_refl) SR) as ([found|e] & ->); simpl.
      * apply IH. intros el' sr' H. apply Self. now right.
      * eexists; reflexivity.
    + apply IH. intros el' sr' H. apply Self. now right.
Qed.

Lemma querySelectorAllShadow_returns h p fuel :
  forall selector root,
    csize root <= fuel ->
    exists r, querySelectorAllShadow h p fuel selector root = Some r.
Proof.
  induction fuel as [|fuel IH]; intros selector root B.
  - pose proof (csize_pos root). lia.
  - simpl. unfold querySelectorAllShadow_body, lift. simpl bind.
    destruct (call_querySelectorAll h p root selector) as [own|e] eqn:Own;
      [|eexists; reflexivity].
    destruct (call_querySelectorAll h p root "*") as [allElements|e] eqn:All;
      [|eexists; reflexivity].
    apply all_in_shadow_roots_returns. intros el sr Hel SR. apply IH.
    pose proof (call_querySelectorAll_below _ _ _ _ _ All el Hel) as Below.
    apply composed_descendant_smaller in Below.
    pose proof (csize_successor el sr (shadowRoot_successor _ _ SR)). lia.
Qed.

(** C5.  Whichever script is loaded, for every root and selector neither
    variant of findAll reports the root itself: the queue variant
    [querySelectorAllShadowOptimized] never has the root's identity among
    its results, and the recursive variant [querySelectorAllShadow] returns
    (a sequence or the engine's error) once it may nest as deep as the tree
    is large, and a sequence it returns never has the root's identity in
    it.  Identities are pairwise distinct in a DOM tree. *)
Theorem findAll_excludes_root h p selector root :
  unique_ids root ->
  (forall res, querySelectorAllShadowOptimized h selector root = Ok res ->
               ~ In (nid root) (map nid res))
  /\ (forall fuel, csize root <= fuel ->
        exists r, querySelectorAllShadow h p fuel selector root = Some r
                  /\ forall res, r = Ok res -> ~ In (nid root) (map nid res)).
Proof.
  intros U. split.
  - intros res E Hin. apply in_map_iff in Hin. destruct Hin as (x & Hid & Hx).
    destruct (queue_variant_reports_below _ _ _ _ E x Hx) as (_ & S1 & _).
    unfold same_node in S1. apply Nat.eqb_neq in S1. congruence.
  - intros fuel B.
    destruct (querySelectorAllShadow_returns h p fuel selector root B) as (r & E).
    exists r. split; [assumption|]. intros res -> Hin.
    apply in_map_iff in Hin. destruct Hin as (x & Hid & Hx).
    apply (unique_ids_descendant root x U); [|assumption].
    now apply (querySelectorAllShadow_below _ _ _ _ _ _ E).
Qed.

Lemma findAll_excludes_root_witness :
  (forall res, querySelectorAllShadowOptimized Sample.engine ".go" Sample.widget = Ok res ->
               ~ In (nid Sample.widget) (map nid res))
  /\ (exists r, querySelectorAllShadow Sample.engine MarkerGated 7 ".go" Sample.widget = Some r
                /\ forall res, r = Ok res -> ~ In (nid Sample.widget) (map nid res)).
Proof.
  destruct (findAll_excludes_root Sample.engine MarkerGated ".go" Sample.widget
              sample_widget_unique_ids) as (queue & recursive).
  split; [exact queue|]. apply recursive. vm_compute. lia.
Defined.

(** ** [closestShadow] *)

(** C10.  [closestShadow] starts at the element itself: an element the
    selector holds of is returned at once, in every tree -- no parent and no
    shadow host is looked at. *)
Theorem closestShadow_inclusive doc h fuel element selector :
  native_matches h element selector = Ok true ->
  closestShadow doc h (S fuel) (Some element) selector = Some (Ok (Some element)).
Proof.
  intros Hit. simpl. unfold call_matches, has_matches.
  assert (is_element element = true) as El.
  { unfold native_matches, native_holds, native_holds_from in Hit.
    destruct (native_valid h selector); [|discriminate].
    injection Hit as Hit. now apply andb_true_iff in Hit. }
  rewrite El, Hit. reflexivity.
Qed.

Lemma closestShadow_inclusive_witness :
  closestShadow Sample.page Sample.engine 1 (Some Sample.button) ".go"
  = Some (Ok (Some Sample.button)).
Proof. apply closestShadow_inclusive. reflexivity. Defined.

(** When the parent chain ends, the variable [element] holds [null] and
    [element.getRootNode()] is evaluated on it. *)
Lemma cross_boundary_null doc : cross_boundary doc None = Throw TypeError.
Proof. reflexivity. Qed.

Lemma cross_boundary_parent doc q : cross_boundary doc (Some q) = Ok (Some q).
Proof. reflexivity. Qed.

(** The shadow boundary is never crossed: at a node the selector does not
    hold of and that has no parent element -- the topmost element of a
    shadow tree, for one -- the walk ends in a [TypeError]. *)
Lemma closestShadow_parent_chain_exhausted doc h fuel element selector :
  native_valid h selector = true ->
  native_holds h element selector = false ->
  parentElement doc element = None ->
  closestShadow doc h (S fuel) (Some element) selector = Some (Throw TypeError).
Proof.
  intros V NoHit NoParent. simpl.
  unfold call_matches, native_matches, has_matches. rewrite V, NoHit, NoParent.
  destruct (is_element element); reflexivity.
Qed.

(** C4.  [closestShadow] on an element never returns [null]: whatever the
    tree, the selector and the number of iterations allowed, the call does
    not end with the absent value.  On the sample page, the walk from [p]
    for a selector that parses and holds of no node ends in a [TypeError]
    after the topmost element [html]. *)
Theorem closestShadow_never_returns_null :
  (forall doc h fuel element selector,
      closestShadow doc h fuel (Some element) selector <> Some (Ok None))
  /\ (forall fuel,
        closestShadow Sample.page Sample.engine (4 + fuel) (Some Sample.para) ".absent"
        = Some (Throw TypeError)).
Proof.
  split; [|intros fuel; reflexivity].
  intros doc h fuel. induction fuel as [|fuel IH]; intros element selector; simpl.
  - discriminate.
  - destruct (if has_matches element then call_matches h element selector else Ok false)
      as [[|]|e]; simpl; try discriminate.
    destruct (parentElement doc element) as [q|]; simpl; [apply IH|discriminate].
Qed.

(** C3.  On the sample page [button] lives in the shadow tree of [x-widget],
    and [.outer] holds of [section] only, the parent of that host.  The walk
    from [button] visits [div], whose parent is the shadow root, and ends in
    a [TypeError]; it does not continue from the host, and [section] is not
    returned. *)
Theorem closestShadow_stops_at_shadow_boundary :
  host_of Sample.page (getRootNode Sample.page Sample.button) = Some Sample.widget
  /\ parentElement Sample.page Sample.widget = Some Sample.section
  /\ native_matches Sample.engine Sample.section ".outer" = Ok true
  /\ filter (fun n => native_holds Sample.engine n ".outer") (composed_nodes Sample.page)
     = [Sample.section]
  /\ forall fuel,
       closestShadow Sample.page Sample.engine (2 + fuel) (Some Sample.button) ".outer"
       = Some (Throw TypeError).
Proof. repeat split. Qed.

(** ** The implicit override of [querySelector] *)

Lemma implicit_querySelectorShadow_diverges h fuel selector root :
  is_shadow_root root = false ->
  querySelectorShadow h Implicit fuel selector root = None.
Proof.
  intros R. induction fuel as [|fuel IH]; simpl; [reflexivity|].
  unfold querySelectorShadow_body, call_querySelector, prototype_querySelector.
  rewrite R, IH. reflexivity.
Qed.

(** C2.  After src/unnamed/part_000 is loaded, [querySelector] called on a
    document or an element does not return, for any selector and however
    deep the calls may nest: the method calls [querySelectorShadow] on the
    receiver, whose first statement calls the receiver's [querySelector]. *)
Theorem implicit_querySelector_never_returns h fuel recv selector :
  is_shadow_root recv = false ->
  querySelector h Implicit fuel recv selector = None.
Proof.
  intros R. unfold querySelector, call_querySelector, prototype_querySelector.
  rewrite R. now apply implicit_querySelectorShadow_diverges.
Qed.

Lemma implicit_querySelector_never_returns_witness :
  querySelector Sample.engine Implicit 1000 Sample.page "button" = None.
Proof. apply implicit_querySelector_never_returns. reflexivity. Defined.

(** ** The recursive variants and the replaced methods *)

(** C6.  After src/unnamed/part_000 is loaded, the recursive variant
    reports nodes of shadow trees more than once.  On the sample page, for
    the selector [.go] (held of by the widget 4, the button 7 and the span
    11), [querySelectorAllShadow] returns 7 twice and 11 three times:
    [root.querySelectorAll] is the replaced method and already returns the
    matches of all shadow trees, and so does [root.querySelectorAll('*')]
    for the hosts; the queue variant returns each of the three once. *)
Theorem implicit_querySelectorAllShadow_duplicates :
  (forall fuel,
      option_map (omap (map nid))
        (querySelectorAllShadow Sample.engine Implicit (3 + fuel) ".go" Sample.page)
      = Some (Ok [4; 7; 11; 7; 11; 11]))
  /\ omap (map nid) (querySelectorAll Sample.engine Implicit Sample.page ".go")
     = Ok [4; 7; 11]
  /\ map nid (filter (fun n => native_holds Sample.engine n ".go")
                     (composed_descendants Sample.page))
     = [4; 7; 11].
Proof. repeat split. Qed.

(** X7.  A root without light-DOM descendants: for a selector without
    marker that the engine parses, [querySelectorShadow] returns [null] and
    [querySelectorAllShadow] the empty sequence after a single call,
    whatever the root's own shadow root contains. *)
Theorem recursive_variants_skip_own_shadow_root h fuel selector root :
  needsShadowSearch selector = false ->
  native_valid h selector = true ->
  descendants root = [] ->
  querySelectorShadow h MarkerGated (S fuel) selector root = Some (Ok None)
  /\ querySelectorAllShadow h MarkerGated (S fuel) selector root = Some (Ok []).
Proof.
  intros NoMarker V Leaf. simpl.
  unfold querySelectorShadow_body, querySelectorAllShadow_body,
    call_querySelector, call_querySelectorAll,
    prototype_querySelector, prototype_querySelectorAll,
    native_querySelector, native_querySelectorAll, native_valid.
  rewrite NoMarker, Leaf. fold (native_valid h selector). rewrite V. simpl.
  destruct (is_shadow_root root); simpl; auto.
Qed.

(** C1.  A match inside the shadow tree of the root itself is found by the
    queue variant only.  On the sample page with the widget as root, the
    button is one shadow boundary below the root and the selector [button]
    holds of it; [querySelectorAllShadowOptimized] reports it, while
    [querySelectorShadow] returns [null] and [querySelectorAllShadow] the
    empty sequence: both enter the shadow roots of the root's light-DOM
    descendants, never the root's own. *)
Theorem recursive_variants_miss_own_shadow_tree :
  shadowRoot Sample.widget = Some Sample.widget_root
  /\ In Sample.button (composed_descendants Sample.widget)
  /\ native_matches Sample.engine Sample.button "button" = Ok true
  /\ querySelectorAllShadowOptimized Sample.engine "button" Sample.widget
     = Ok [Sample.button]
  /\ (forall fuel,
        querySelectorShadow Sample.engine MarkerGated (1 + fuel) "button" Sample.widget
        = Some (Ok None))
  /\ (forall fuel,
        querySelectorAllShadow Sample.engine MarkerGated (1 + fuel) "button" Sample.widget
        = Some (Ok [])).
Proof.
  repeat split.
  simpl. auto 10.
Qed.

(** A selector the native engine parses can contain a marker, inside an
    attribute value.  [root.querySelector] and [root.querySelectorAll] are
    the replaced methods, so the recursive variants search the light DOM for
    the cleaned selector and only the shadow trees for the selector they were
    given: on the sample page [p] has the title [>>>], the original
    [querySelector] and the queue variant find it, [querySelectorShadow] and
    [querySelectorAllShadow] do not.  This is why the marker-free selectors
    are singled out below. *)
Example marker_inside_attribute_value :
  omap (option_map nid) (native_querySelector Sample.engine Sample.page "[title='>>>']")
  = Ok (Some 8)
  /\ omap (map nid)
       (querySelectorAllShadowOptimized Sample.engine "[title='>>>']" Sample.page)
     = Ok [8]
  /\ cleanSelector "[title='>>>']" = "[title='']"
  /\ (forall fuel,
        querySelectorShadow Sample.engine MarkerGated (4 + fuel) "[title='>>>']" Sample.page
        = Some (Ok None))
  /\ (forall fuel,
        querySelectorAllShadow Sample.engine MarkerGated (3 + fuel) "[title='>>>']" Sample.page
        = Some (Ok [])).
Proof. repeat split. Qed.

(** ** What the recursive variants find

    With the original native methods in place (no script, or the
    marker-gated script and a selector without marker) the recursive
    variants find the matches among the nodes they search. *)

Lemma unpatched_call_querySelector h self recv selector :
  call_querySelector h Unpatched self recv selector
  = lift (native_querySelector h recv selector).
Proof. unfold call_querySelector. now destruct (is_shadow_root recv). Qed.

Lemma unpatched_call_querySelectorAll h recv selector :
  call_querySelectorAll h Unpatched recv selector
  = native_querySelectorAll h recv selector.
Proof. unfold call_querySelectorAll. now destruct (is_shadow_root recv). Qed.

Lemma native_star_from h scope n : native_holds_from h scope n "*" = is_element n.
Proof. unfold native_holds_from. simpl. apply andb_true_r. Qed.

Lemma native_star h n : native_holds h n "*" = is_element n.
Proof. apply native_star_from. Qed.

Lemma native_all_elements h root :
  native_querySelectorAll h root "*" = Ok (filter is_element (descendants root)).
Proof.
  unfold native_querySelectorAll, native_valid. simpl. f_equal.
  apply filter_ext. intros n. apply native_star_from.
Qed.

(** For a scope-free selector the original queries and [matches] use the
    same test. *)
Lemma scope_free_holds h sel scope n :
  scope_free h sel -> native_holds_from h scope n sel = native_holds h n sel.
Proof.
  intros Free. unfold native_holds, native_holds_from. now rewrite (Free scope n).
Qed.

Lemma find_ext_all {A} (f g : A -> bool) l :
  (forall a, f a = g a) -> find f l = find g l.
Proof.
  intros E. induction l as [|a l IH]; simpl; [reflexivity|].
  now rewrite E, IH.
Qed.

Lemma scope_free_querySelectorAll h sel root :
  scope_free h sel -> native_valid h sel = true ->
  native_querySelectorAll h root sel
  = Ok (filter (fun n => native_holds h n sel) (descendants root)).
Proof.
  intros Free V. unfold native_querySelectorAll. rewrite V. f_equal.
  apply filter_ext. intros n. now apply scope_free_holds.
Qed.

Lemma scope_free_querySelector h sel root :
  scope_free h sel -> native_valid h sel = true ->
  native_querySelector h root sel
  = Ok (find (fun n => native_holds h n sel) (descendants root)).
Proof.
  intros Free V. unfold native_querySelector. rewrite V. f_equal.
  apply find_ext_all. intros n. now apply scope_free_holds.
Qed.

Lemma shadowRoot_is_element el sr : shadowRoot el = Some sr -> is_element el = true.
Proof. unfold shadowRoot. destruct (is_element el); [reflexivity|discriminate]. Qed.

Lemma descendant_host_smaller root el sr :
  In el (descendants root) -> shadowRoot el = Some sr -> csize sr < csize root.
Proof.
  intros Hel SR. apply descendants_composed, composed_descendant_smaller in Hel.
  pose proof (csize_successor el sr (shadowRoot_successor _ _ SR)). lia.
Qed.

Section RecursiveFacts.
Variable h : host.
Variable selector : string.
Hypothesis valid : native_valid h selector = true.
Hypothesis unscoped : scope_free h selector.

Local Abbreviation holds := (fun n => native_holds h n selector).

Lemma first_in_shadow_roots_spec self allElements :
  (forall el sr, In el allElements -> shadowRoot el = Some sr ->
     (exists y, self selector sr = Some (Ok (Some y)) /\ holds y = true /\ searched sr y)
     \/ (self selector sr = Some (Ok None)
         /\ forall x, searched sr x -> holds x = false)) ->
  (exists y, first_in_shadow_roots self selector allElements = Some (Ok (Some y))
             /\ holds y = true
             /\ exists el sr, In el allElements /\ shadowRoot el = Some sr /\ searched sr y)
  \/ (first_in_shadow_roots self selector allElements = Some (Ok None)
      /\ forall el sr x, In el allElements -> shadowRoot el = Some sr ->
                         searched sr x -> holds x = false).
Proof.
  induction allElements as [|el rest IH]; intros Self; simpl.
  - right. split; [reflexivity|]. intros el sr x [].
  - assert (forall el' sr', In el' rest -> shadowRoot el' = Some sr' ->
       (exists y, self selector sr' = Some (Ok (Some y)) /\ holds y = true /\ searched sr' y)
       \/ (self selector sr' = Some (Ok None)
           /\ forall x, searched sr' x -> holds x = false)) as Self'
      by (intros el' sr' H; apply Self; now right).
    specialize (IH Self'). destruct (shadowRoot el) as [sr|] eqn:SR.
    + destruct (Self el sr (or_introl eq_refl) SR) as [(y & -> & Hy & Sy)|(-> & Ny)]; simpl.
      * left. exists y. repeat split; auto. exists el, sr. auto.
      * destruct IH as [(y & E & Hy & el' & sr' & Hel' & SR' & Sy)|(E & N)].
        -- left. exists y. repeat split; auto. exists el', sr'. auto.
        -- right. split; [assumption|]. intros el' sr' x [<-|Hel'] SR' Sx.
           ++ rewrite SR in SR'. injection SR' as <-. now apply Ny.
           ++ now apply (N el' sr' x).
    + destruct IH as [(y & E & Hy & el' & sr' & Hel' & SR' & Sy)|(E & N)].
      * left. exists y. repeat split; auto. exists el', sr'. auto.
      * right. split; [assumption|]. intros el' sr' x [<-|Hel'] SR' Sx.
        -- rewrite SR in SR'. discriminate.
        -- now apply (N el' sr' x).
Qed.

(** [querySelectorShadow]: it returns; what it returns is searched and
    held of by the selector; it returns [null] only if the selector holds of
    nothing that is searched. *)
Lemma unpatched_querySelectorShadow_spec fuel :
  forall root,
    csize root <= fuel ->
    (exists y, querySelectorShadow h Unpatched fuel selector root = Some (Ok (Some y))
               /\ holds y = true /\ searched root y)
    \/ (querySelectorShadow h Unpatched fuel selector root = Some (Ok None)
        /\ forall x, searched root x -> holds x = false).
Proof.
  induction fuel as [|fuel IH]; intros root B.
  - pose proof (csize_pos root). lia.
  - simpl. unfold querySelectorShadow_body.
    rewrite unpatched_call_querySelector, unpatched_call_querySelectorAll.
    rewrite native_all_elements, (scope_free_querySelector _ _ _ unscoped valid). simpl.
    destruct (find holds (descendants root)) as [e|] eqn:F.
    + left. exists e. apply find_some in F. destruct F as [Hin He].
      repeat split; auto. now apply searched_light.
    + pose proof (find_none _ _ F) as Light. simpl in Light.
      destruct (first_in_shadow_roots_spec (querySelectorShadow h Unpatched fuel)
                  (filter is_element (descendants root)))
        as [(y & E & Hy & el & sr & Hel & SR & Sy)|(E & N)].
      * intros el sr Hel SR. apply IH.
        apply filter_In in Hel. destruct Hel as [Hel _].
        pose proof (descendant_host_smaller root el sr Hel SR). lia.
      * left. exists y. repeat split; auto.
        apply filter_In in Hel. destruct Hel as [Hel _].
        now apply (searched_shadow root el sr).
      * right. split; [assumption|]. intros x Sx. inversion Sx; subst.
        -- now apply Light.
        -- apply (N el sr x); auto. apply filter_In. split; [assumption|].
           now apply shadowRoot_is_element with sr.
Qed.

Lemma all_in_shadow_roots_spec self allElements :
  forall results,
    (forall el sr, In el allElements -> shadowRoot el = Some sr ->
       exists found, self selector sr = Some (Ok found)
                     /\ forall x, In x found <-> searched sr x /\ holds x = true) ->
    exists res,
      all_in_shadow_roots self selector allElements results = Some (Ok res)
      /\ forall x, In x res <->
           In x results
           \/ exists el sr, In el allElements /\ shadowRoot el = Some sr
                            /\ searched sr x /\ holds x = true.
Proof.
  induction allElements as [|el rest IH]; intros results Self; simpl.
  - exists results. split; [reflexivity|]. intros x. split; [auto|].
    intros [H|(el & sr & [] & _)]. assumption.
  - assert (forall el' sr', In el' rest -> shadowRoot el' = Some sr' ->
       exists found, self selector sr' = Some (Ok found)
                     /\ forall x, In x found <-> searched sr' x /\ holds x = true) as Self'
      by (intros el' sr' H; apply Self; now right).
    destruct (shadowRoot el) as [sr|] eqn:SR.
    + destruct (Self el sr (or_introl eq_refl) SR) as (found & -> & Found). simpl.
      destruct (IH (results ++ found) Self') as (res & E & Res).
      exists res. split; [assumption|]. intros x. rewrite Res, in_app_iff, Found.
      split.
      * intros [[H|(Sx & Hx)]|(el' & sr' & Hel' & SR' & Sx & Hx)]; auto.
        -- right. exists el, sr. auto.
        -- right. exists el', sr'. auto.
      * intros [H|(el' & sr' & [<-|Hel'] & SR' & Sx & Hx)]; auto.
        -- rewrite SR in SR'. injection SR' as <-. auto.
        -- right. exists el', sr'. auto.
    + destruct (IH results Self') as (res & E & Res).
      exists res. split; [assumption|]. intros x. rewrite Res. split.
      * intros [H|(el' & sr' & Hel' & SR' & Sx & Hx)]; auto.
        right. exists el', sr'. auto.
      * intros [H|(el' & sr' & [<-|Hel'] & SR' & Sx & Hx)]; auto.
        -- rewrite SR in SR'. discriminate.
        -- right. exists el', sr'. auto.
Qed.

(** [querySelectorAllShadow]: it returns a sequence, made of the searched
    nodes the selector holds of. *)
Lemma unpatched_querySelectorAllShadow_spec fuel :
  forall root,
    csize root <= fuel ->
    exists res,
      querySelectorAllShadow h Unpatched fuel selector root = Some (Ok res)
      /\ forall x, In x res <-> searched root x /\ holds x = true.
Proof.
  induction fuel as [|fuel IH]; intros root B.
  - pose proof (csize_pos root). lia.
  - simpl. unfold querySelectorAllShadow_body.
    rewrite !unpatched_call_querySelectorAll, native_all_elements.
    rewrite (scope_free_querySelectorAll _ _ _ unscoped valid). simpl.
    destruct (all_in_shadow_roots_spec (querySelectorAllShadow h Unpatched fuel)
                (filter is_element (descendants root))
                (filter holds (descendants root)))
      as (res & E & Res).
    + intros el sr Hel SR. apply IH.
      apply filter_In in Hel. destruct Hel as [Hel _].
      pose proof (descendant_host_smaller root el sr Hel SR). lia.
    + exists res. split; [assumption|]. intros x. rewrite Res, filter_In. split.
      * intros [[Hx Px]|(el & sr & Hel & SR & Sx & Px)].
        -- split; [now apply searched_light|assumption].
        -- apply filter_In in Hel. destruct Hel as [Hel _].
           split; [now apply (searched_shadow root el sr)|assumption].
      * intros [Sx Px]. inversion Sx; subst; [now left|right].
        exists el, sr. repeat split; auto. apply filter_In. split; [assumption|].
        now apply shadowRoot_is_element with sr.
Qed.

End RecursiveFacts.

(** ** The marker-gated override *)

Lemma first_in_shadow_roots_ext self1 self2 selector allElements :
  (forall sr, self1 selector sr = self2 selector sr) ->
  first_in_shadow_roots self1 selector allElements
  = first_in_shadow_roots self2 selector allElements.
Proof.
  intros E. induction allElements as [|el rest IH]; simpl; [reflexivity|].
  destruct (shadowRoot el) as [sr|]; [|assumption].
  rewrite E. destruct (self2 selector sr) as [[[e|]|e]|]; simpl; auto.
Qed.

(** For a selector without marker the replaced methods hand over to the
    originals, so [querySelectorShadow] runs as if nothing were replaced. *)
Lemma querySelectorShadow_marker_free h fuel :
  forall selector root,
    needsShadowSearch selector = false ->
    querySelectorShadow h MarkerGated fuel selector root
    = querySelectorShadow h Unpatched fuel selector root.
Proof.
  induction fuel as [|fuel IH]; intros selector root NoMarker; simpl; [reflexivity|].
  unfold querySelectorShadow_body, call_querySelector, call_querySelectorAll,
    prototype_querySelector, prototype_querySelectorAll.
  rewrite NoMarker. change (needsShadowSearch "*") with false. cbv iota.
  assert (forall self1 self2 : string -> node -> M (option node),
            (forall sr, self1 selector sr = self2 selector sr) ->
            (element <- lift (native_querySelector h root selector) ;;
             match element with
             | Some e => ret (Some e)
             | None =>
                 allElements <- lift (native_querySelectorAll h root "*") ;;
                 first_in_shadow_roots self1 selector allElements
             end)
            = (element <- lift (native_querySelector h root selector) ;;
               match element with
               | Some e => ret (Some e)
               | None =>
                   allElements <- lift (native_querySelectorAll h root "*") ;;
                   first_in_shadow_roots self2 selector allElements
               end)) as Same.
  { intros self1 self2 E. unfold lift, bind.
    destruct (native_querySelector h root selector) as [[e|]|e]; try reflexivity.
    destruct (native_querySelectorAll h root "*") as [allElements|e]; try reflexivity.
    now apply first_in_shadow_roots_ext. }
  destruct (is_shadow_root root); apply Same; intros sr; now apply IH.
Qed.

(** How the replaced methods of src/querySelectorShadow.js dispatch on an
    element or a document: with a marker, to [querySelectorShadow],
    respectively [querySelectorAllShadowOptimized], on the cleaned string
    with the receiver as root; without marker, to the original native
    method. *)
Lemma marker_gated_dispatch h fuel recv selector :
  is_shadow_root recv = false ->
  (needsShadowSearch selector = true ->
     querySelector h MarkerGated fuel recv selector
     = querySelectorShadow h MarkerGated fuel (cleanSelector selector) recv
     /\ querySelectorAll h MarkerGated recv selector
        = querySelectorAllShadowOptimized h (cleanSelector selector) recv)
  /\ (needsShadowSearch selector = false ->
      querySelector h MarkerGated fuel recv selector
      = lift (native_querySelector h recv selector)
      /\ querySelectorAll h MarkerGated recv selector
         = native_querySelectorAll h recv selector).
Proof.
  intros R.
  unfold querySelector, querySelectorAll, call_querySelector, call_querySelectorAll,
    prototype_querySelector, prototype_querySelectorAll.
  rewrite R. split; intros ->; repeat split.
Qed.

(** C7.  The code at the failing input.  After src/querySelectorShadow.js is
    loaded, [document.querySelectorAll(':sh>>>adow .go')] on the sample
    page: the selector contains the marker [>>>], so the call is answered
    by the shadow-aware traversal; but [cleanSelector] does not strip every
    marker: removing [>>>] splices a [:shadow] together, the string handed
    to the traversal and from there to [matches] is [:shadow .go], which
    still contains a marker and which the engine does not parse, and the
    call throws a SyntaxError.  With every marker stripped the traversal
    would run on [.go] and return the widget, the button and the span. *)
Theorem marker_survives_cleaning :
  needsShadowSearch ":sh>>>adow .go" = true
  /\ cleanSelector ":sh>>>adow .go" = ":shadow .go"
  /\ needsShadowSearch (cleanSelector ":sh>>>adow .go") = true
  /\ querySelectorAll Sample.engine MarkerGated Sample.page ":sh>>>adow .go"
     = Throw SyntaxError
  /\ omap (map nid) (querySelectorAllShadowOptimized Sample.engine ".go" Sample.page)
     = Ok [4; 7; 11].
Proof. repeat split. Qed.

(** The same slip with [:shadow] as the token that is removed:
    [:sha:shadowdow] becomes [:shadow]. *)
Example spliced_marker_within_one_pass :
  cleanSelector ":sha:shadowdow .go" = ":shadow .go"
  /\ querySelectorAll Sample.engine MarkerGated Sample.page ":sha:shadowdow .go"
     = Throw SyntaxError.
Proof. repeat split. Qed.

(** White space after a marker goes with it, the no-break space too, and
    the ends are trimmed. *)
Example cleanSelector_no_break_space :
  cleanSelector (String (ascii_of_nat 160) (":shadow" ++ String (ascii_of_nat 160) ".go "))
  = ".go".
Proof. reflexivity. Qed.

(** ** Where the recursive variants are complete *)

Lemma all_in_shadow_roots_ext self1 self2 selector allElements :
  (forall sr, self1 selector sr = self2 selector sr) ->
  forall results,
    all_in_shadow_roots self1 selector allElements results
    = all_in_shadow_roots self2 selector allElements results.
Proof.
  intros E. induction allElements as [|el rest IH]; intros results; simpl; [reflexivity|].
  destruct (shadowRoot el) as [sr|]; [|apply IH].
  rewrite E. destruct (self2 selector sr) as [[found|e]|]; simpl; auto.
Qed.

Lemma querySelectorAllShadow_marker_free h fuel :
  forall selector root,
    needsShadowSearch selector = false ->
    querySelectorAllShadow h MarkerGated fuel selector root
    = querySelectorAllShadow h Unpatched fuel selector root.
Proof.
  induction fuel as [|fuel IH]; intros selector root NoMarker; simpl; [reflexivity|].
  unfold querySelectorAllShadow_body, call_querySelectorAll, prototype_querySelectorAll.
  rewrite NoMarker. change (needsShadowSearch "*") with false. cbv iota.
  assert (forall self1 self2 : string -> node -> M (list node),
            (forall sr, self1 selector sr = self2 selector sr) ->
            (own <- lift (native_querySelectorAll h root selector) ;;
             let results := [] ++ own in
             allElements <- lift (native_querySelectorAll h root "*") ;;
             all_in_shadow_roots self1 selector allElements results)
            = (own <- lift (native_querySelectorAll h root selector) ;;
               let results := [] ++ own in
               allElements <- lift (native_querySelectorAll h root "*") ;;
               all_in_shadow_roots self2 selector allElements results)) as Same.
  { intros self1 self2 E. unfold lift, bind.
    destruct (native_querySelectorAll h root selector) as [own|e]; try reflexivity.
    destruct (native_querySelectorAll h root "*") as [allElements|e]; try reflexivity.
    now apply all_in_shadow_roots_ext. }
  destruct (is_shadow_root root); apply Same; intros sr; now apply IH.
Qed.

Lemma searched_composed root x :
  searched root x -> In x (composed_descendants root).
Proof.
  induction 1 as [root x Hx|root el sr x Hel SR _ IH].
  - now apply descendants_composed.
  - apply composed_descendants_trans with sr.
    + apply composed_descendants_trans with el; [now apply descendants_composed|].
      rewrite composed_nodes_unfold. right.
      apply in_successors_composed. now apply shadowRoot_successor.
    + rewrite composed_nodes_unfold. now right.
Qed.

Lemma child_descendant root c : In c (children root) -> In c (descendants root).
Proof.
  intros H. rewrite descendants_unfold. apply in_flat_map. exists c. split; [assumption|now left].
Qed.

Lemma descendants_child root c x :
  In c (children root) -> In x (descendants c) -> In x (descendants root).
Proof.
  intros H Hx. rewrite descendants_unfold. apply in_flat_map. exists c.
  split; [assumption|now right].
Qed.

Lemma searched_child root c x :
  In c (children root) -> searched c x -> searched root x.
Proof.
  intros Hc Sx. inversion Sx; subst.
  - apply searched_light. now apply descendants_child with c.
  - apply (searched_shadow root el sr); auto. now apply descendants_child with c.
Qed.

Lemma fragments_successor n c :
  shadow_roots_are_fragments n -> In c (successors n) -> shadow_roots_are_fragments c.
Proof.
  intros W Hc m sr Hm. apply W.
  apply composed_nodes_trans with c; [|assumption].
  rewrite composed_nodes_unfold. right. now apply in_successors_composed.
Qed.

(** An element of the composed tree below [n] is searched from [n], or from
    the shadow root of [n] itself. *)
Lemma composed_searched n :
  shadow_roots_are_fragments n ->
  forall x, In x (composed_descendants n) -> is_element x = true ->
    searched n x \/ exists sr, shadowRoot n = Some sr /\ searched sr x.
Proof.
  induction n as [n IH] using node_ind. intros W x Hx El.
  apply in_flat_map in Hx. destruct Hx as (c & Hc & Hx).
  pose proof (fragments_successor n c W Hc) as Wc.
  rewrite composed_nodes_unfold in Hx.
  assert (forall x, In x (composed_descendants c) -> is_element x = true ->
            searched c x \/ exists sr, shadowRoot c = Some sr /\ searched sr x) as IHc
    by (now apply IH).
  pose proof Hc as Hc'. unfold successors in Hc'. apply in_app_or in Hc'.
  destruct Hc' as [Hsr|Hchild].
  - destruct (shadowRoot n) as [sr|] eqn:SR; [|destruct Hsr].
    destruct Hsr as [<-|[]].
    assert (is_element sr = false) as Frag.
    { apply (W n sr); [|assumption]. rewrite composed_nodes_unfold. now left. }
    destruct Hx as [<-|Hx]; [congruence|].
    right. exists sr. split; [reflexivity|].
    destruct (IHc x Hx El) as [S|(sr' & SR' & _)]; [assumption|].
    apply shadowRoot_is_element in SR'. congruence.
  - left. destruct Hx as [<-|Hx]; [apply searched_light; now apply child_descendant|].
    destruct (IHc x Hx El) as [S|(sr' & SR' & S)].
    + now apply searched_child with c.
    + apply (searched_shadow n c sr'); auto. now apply child_descendant.
Qed.

Lemma recursive_variants_skip_own_shadow_root_witness :
  querySelectorShadow Sample.engine MarkerGated 1 "button" Sample.widget = Some (Ok None)
  /\ querySelectorAllShadow Sample.engine MarkerGated 1 "button" Sample.widget
     = Some (Ok []).
Proof. apply recursive_variants_skip_own_shadow_root; reflexivity. Defined.

Lemma queue_variant_invalid_selector_witness :
  querySelectorAllShadowOptimized Sample.engine "div >" Sample.page = Throw SyntaxError.
Proof.
  rewrite (queue_variant_invalid_selector Sample.engine "div >" Sample.page eq_refl).
  reflexivity.
Defined.

(** X3.  Completeness where it holds: in a DOM tree, from a root that is not
    itself a shadow host -- a document, a shadow root, an element without
    shadow root -- and for a selector without marker that does not depend on
    the scoping root (no [:scope]), [querySelectorShadow] returns a match
    and [querySelectorAllShadow] contains every match of the composed tree
    below the root, at any depth of shadow nesting.  (With [:scope] the
    variants find nothing, whatever [matches] says:
    [scoped_selector_on_the_sample].) *)
Theorem recursive_variants_complete h fuel selector root x :
  needsShadowSearch selector = false ->
  scope_free h selector ->
  shadow_roots_are_fragments root ->
  shadowRoot root = None ->
  In x (composed_descendants root) ->
  native_matches h x selector = Ok true ->
  csize root <= fuel ->
  (exists y, querySelectorShadow h MarkerGated fuel selector root = Some (Ok (Some y))
             /\ native_matches h y selector = Ok true
             /\ In y (composed_descendants root))
  /\ (exists res, querySelectorAllShadow h MarkerGated fuel selector root = Some (Ok res)
                  /\ In x res).
Proof.
  intros NoMarker Free W NoShadow Below Hit B.
  assert (native_valid h selector = true /\ native_holds h x selector = true) as (V & Holds).
  { unfold native_matches in Hit. destruct (native_valid h selector); [|discriminate].
    injection Hit as Hit. auto. }
  assert (is_element x = true) as El
    by (unfold native_holds, native_holds_from in Holds; now apply andb_true_iff in Holds).
  assert (searched root x) as Sx.
  { destruct (composed_searched root W x Below El) as [S|(sr & SR & _)]; [assumption|].
    congruence. }
  rewrite querySelectorShadow_marker_free, querySelectorAllShadow_marker_free by assumption.
  split.
  - destruct (unpatched_querySelectorShadow_spec h selector V Free fuel root B)
      as [(y & E & Hy & Sy)|(_ & N)].
    + exists y. repeat split; [assumption| |now apply searched_composed].
      unfold native_matches. now rewrite V, Hy.
    + specialize (N x Sx). simpl in N. congruence.
  - destruct (unpatched_querySelectorAllShadow_spec h selector V Free fuel root B)
      as (res & E & Res).
    exists res. split; [assumption|]. apply Res. auto.
Qed.

Lemma sample_page_fragments : shadow_roots_are_fragments Sample.page.
Proof.
  intros n sr Hn SR. simpl in Hn.
  repeat (destruct Hn as [<-|Hn]; [try discriminate SR; injection SR as <-; reflexivity|]).
  destruct Hn.
Qed.

Lemma recursive_variants_complete_witness :
  (exists y, querySelectorShadow Sample.engine MarkerGated 12 ".go" Sample.page
             = Some (Ok (Some y))
             /\ native_matches Sample.engine y ".go" = Ok true
             /\ In y (composed_descendants Sample.page))
  /\ (exists res, querySelectorAllShadow Sample.engine MarkerGated 12 ".go" Sample.page
                  = Some (Ok res)
                  /\ In Sample.span res).
Proof.
  apply recursive_variants_complete.
  - reflexivity.
  - intros scope n. reflexivity.
  - apply sample_page_fragments.
  - reflexivity.
  - simpl. auto 20.
  - reflexivity.
  - vm_compute. lia.
Defined.

(** A selector that depends on the scoping root.  Every element
    [matches(':scope')], so the queue variant, which tests with [matches],
    reports every element below the section; [section.querySelectorAll]
    resolves [:scope] to the section, which is not among its own
    descendants, and each shadow root likewise finds nothing, so the
    recursive variants come back empty. *)
Example scope_depends_on_the_scoping_root :
  ~ scope_free Sample.engine ":scope".
Proof.
  intros Free. specialize (Free Sample.section Sample.widget). discriminate Free.
Qed.

Example scoped_selector_on_the_sample :
  native_matches Sample.engine Sample.widget ":scope" = Ok true
  /\ native_querySelectorAll Sample.engine Sample.section ":scope" = Ok []
  /\ querySelectorShadow Sample.engine MarkerGated 12 ":scope" Sample.section
     = Some (Ok None)
  /\ querySelectorAllShadow Sample.engine MarkerGated 12 ":scope" Sample.section
     = Some (Ok [])
  /\ querySelector Sample.engine MarkerGated 12 Sample.section ":shadow :scope"
     = Some (Ok None)
  /\ omap (map nid) (querySelectorAllShadowOptimized Sample.engine ":scope" Sample.section)
     = Ok [4; 8; 6; 7; 9; 11]
  /\ option_map (omap (map nid))
       (querySelectorAllShadow Sample.engine Implicit 12 ":scope" Sample.section)
     = Some (Ok [4; 8; 6; 7; 9; 11]).
Proof. repeat split. Qed.

(** ** Every query of the marker-gated script returns

    A selector with a marker makes the replaced [querySelector] call
    [querySelectorShadow], which calls the replaced [querySelector] with the
    cleaned selector; cleaning a selector that contains a marker shortens
    it, so this comes to an end. *)

Lemma remove_token_length tok s :
  String.length (remove_token tok s) <= String.length s.
Proof.
  funelim (remove_token tok s); simp remove_token; simpl; try lia.
  pose proof (skip_spaces_length (drop (String.length tok - 1) rest)).
  pose proof (drop_length (String.length tok - 1) rest). lia.
Qed.

Lemma includes_cons tok c rest :
  includes tok (String c rest) = String.prefix tok (String c rest) || includes tok rest.
Proof. reflexivity. Qed.

Lemma remove_token_absent tok s :
  includes tok s = false -> remove_token tok s = s.
Proof.
  funelim (remove_token tok s); intros Absent.
  - reflexivity.
  - rewrite includes_cons, Heq in Absent. discriminate.
  - rewrite includes_cons, Heq in Absent. f_equal. now apply H.
Qed.

Lemma remove_token_shrinks tok s :
  tok <> EmptyString ->
  includes tok s = true ->
  String.length (remove_token tok s) < String.length s.
Proof.
  intros NonEmpty.
  funelim (remove_token tok s); intros Present.
  - destruct tok; [congruence|discriminate].
  - pose proof (remove_token_length tok
                  (skip_spaces (drop (String.length tok - 1) rest))).
    pose proof (skip_spaces_length (drop (String.length tok - 1) rest)).
    pose proof (drop_length (String.length tok - 1) rest). simpl. lia.
  - rewrite includes_cons, Heq in Present. specialize (H NonEmpty Present).
    simpl. lia.
Qed.

Lemma trim_end_length s : String.length (trim_end s) <= String.length s.
Proof.
  induction s as [|c s IH]; simpl; [lia|].
  destruct (trim_end s); [destruct (is_space c)|]; simpl in *; lia.
Qed.

Lemma trim_length s : String.length (trim s) <= String.length s.
Proof.
  unfold trim, trim_start.
  pose proof (trim_end_length (skip_spaces s)). pose proof (skip_spaces_length s). lia.
Qed.

Lemma cleanSelector_shrinks selector :
  needsShadowSearch selector = true ->
  String.length (cleanSelector selector) < String.length selector.
Proof.
  unfold needsShadowSearch, cleanSelector. intros Marker.
  pose proof (trim_length (remove_token ">>>" (remove_token ":shadow" selector))).
  pose proof (remove_token_length ">>>" (remove_token ":shadow" selector)).
  pose proof (remove_token_length ":shadow" selector).
  destruct (includes ":shadow" selector) eqn:Shadow.
  - assert (":shadow" <> EmptyString) as NE by discriminate.
    pose proof (remove_token_shrinks ":shadow" selector NE Shadow). lia.
  - simpl in Marker. rewrite (remove_token_absent ":shadow" selector Shadow) in *.
    assert (">>>" <> EmptyString) as NE by discriminate.
    pose proof (remove_token_shrinks ">>>" selector NE Marker). lia.
Qed.

Lemma first_in_shadow_roots_returns self selector :
  forall allElements,
    (forall el sr, In el allElements -> shadowRoot el = Some sr ->
                   exists r, self selector sr = Some r) ->
    exists r, first_in_shadow_roots self selector allElements = Some r.
Proof.
  induction allElements as [|el rest IH]; intros Self; simpl.
  - eexists; reflexivity.
  - destruct (shadowRoot el) as [sr|] eqn:SR.
    + destruct (Self el sr (or_introl eq_refl) SR) as ([[e|]|e] & ->); simpl;
        try (eexists; reflexivity).
      apply IH. intros el' sr' H. apply Self. now right.
    + apply IH. intros el' sr' H. apply Self. now right.
Qed.

Lemma marker_gated_querySelectorShadow_returns h fuel :
  forall selector root,
    csize root + String.length selector <= fuel ->
    exists r, querySelectorShadow h MarkerGated fuel selector root = Some r.
Proof.
  induction fuel as [|fuel IH]; intros selector root B.
  - pose proof (csize_pos root). lia.
  - simpl. unfold querySelectorShadow_body.
    assert (exists r, call_querySelector h MarkerGated
                        (querySelectorShadow h MarkerGated fuel) root selector = Some r)
      as (r & ->).
    { unfold call_querySelector, prototype_querySelector, lift.
      destruct (is_shadow_root root); [eexists; reflexivity|].
      destruct (needsShadowSearch selector) eqn:Marker; [|eexists; reflexivity].
      apply IH. pose proof (cleanSelector_shrinks selector Marker). lia. }
    destruct r as [[e|]|e]; simpl; try (eexists; reflexivity).
    destruct (call_querySelectorAll h MarkerGated root "*") as [allElements|e] eqn:All;
      simpl; [|eexists; reflexivity].
    apply first_in_shadow_roots_returns. intros el sr Hel SR. apply IH.
    pose proof (call_querySelectorAll_below _ _ _ _ _ All el Hel) as Below.
    apply composed_descendant_smaller in Below.
    pose proof (csize_successor el sr (shadowRoot_successor _ _ SR)). lia.
Qed.

(** X5.  After src/querySelectorShadow.js is loaded, [querySelector]
    returns (a result or the engine's error) on every receiver and for every
    selector, markers or not, once the calls may nest as deep as the size of
    the tree plus the length of the selector: each pass through the replaced
    method shortens the selector. *)
Theorem marker_gated_querySelector_returns h fuel recv selector :
  csize recv + String.length selector <= fuel ->
  exists r, querySelector h MarkerGated fuel recv selector = Some r.
Proof.
  intros B. unfold querySelector, call_querySelector, prototype_querySelector, lift.
  destruct (is_shadow_root recv); [eexists; reflexivity|].
  destruct (needsShadowSearch selector) eqn:Marker; [|eexists; reflexivity].
  apply marker_gated_querySelectorShadow_returns.
  pose proof (cleanSelector_shrinks selector Marker). lia.
Qed.

Lemma marker_gated_querySelector_returns_witness :
  exists r, querySelector Sample.engine MarkerGated 40 Sample.page ":shadow :shadow button"
            = Some r.
Proof. apply marker_gated_querySelector_returns. vm_compute. lia. Defined.

(** ** The recursive variant reports a node once, with the original methods *)

Lemma ids_within_refl l : ids_within l l.
Proof. intros i. lia. Qed.

Lemma ids_within_trans l1 l2 l3 :
  ids_within l1 l2 -> ids_within l2 l3 -> ids_within l1 l3.
Proof. intros A B i. specialize (A i). specialize (B i). lia. Qed.

Lemma ids_within_app l1 l2 l3 l4 :
  ids_within l1 l2 -> ids_within l3 l4 -> ids_within (l1 ++ l3) (l2 ++ l4).
Proof.
  intros A B i. rewrite !map_app, !count_occ_app. specialize (A i). specialize (B i). lia.
Qed.

Lemma ids_within_cons x l1 l2 : ids_within l1 l2 -> ids_within (x :: l1) (x :: l2).
Proof. intros A. apply (ids_within_app [x] [x]); [apply ids_within_refl|assumption]. Qed.

Lemma ids_within_nil l : ids_within [] l.
Proof. intros i. simpl. lia. Qed.

Lemma ids_within_permutation l1 l1' l2 :
  Permutation l1 l1' -> ids_within l1' l2 -> ids_within l1 l2.
Proof.
  intros P A i. specialize (A i).
  apply (Permutation_map nid) in P.
  rewrite (proj1 (Permutation_count_occ Nat.eq_dec _ _) P i). assumption.
Qed.

Lemma ids_within_filter keep l : ids_within (filter keep l) l.
Proof.
  induction l as [|a l IH]; simpl; [apply ids_within_nil|].
  destruct (keep a); [now apply ids_within_cons|].
  apply (ids_within_app [] [a]); [apply ids_within_nil|assumption].
Qed.

Lemma ids_within_flat_map (f g : node -> list node) l :
  (forall x, In x l -> ids_within (f x) (g x)) ->
  ids_within (flat_map f l) (flat_map g l).
Proof.
  induction l as [|a l IH]; intros A; simpl; [apply ids_within_nil|].
  apply ids_within_app; [apply A; now left|]. apply IH. intros x Hx. apply A. now right.
Qed.

Lemma ids_within_NoDup l1 l2 :
  ids_within l1 l2 -> NoDup (map nid l2) -> NoDup (map nid l1).
Proof.
  intros A N. apply (NoDup_count_occ Nat.eq_dec). intros i.
  apply (NoDup_count_occ Nat.eq_dec) with (x := i) in N. specialize (A i). lia.
Qed.

Lemma flat_map_app_permutation {A B} (f g : A -> list B) l :
  Permutation (flat_map f l ++ flat_map g l) (flat_map (fun a => f a ++ g a) l).
Proof.
  induction l as [|a l IH]; simpl; [constructor|].
  rewrite <- IH, <- !app_assoc. apply Permutation_app_head.
  rewrite !app_assoc. apply Permutation_app_tail, Permutation_app_comm.
Qed.

Lemma composed_nodes_split c :
  composed_nodes c = c :: shadow_tree c ++ light_tree c.
Proof.
  rewrite composed_nodes_unfold. unfold composed_descendants, successors.
  now rewrite flat_map_app.
Qed.

(** The light-DOM descendants of [n] and the shadow trees of these fit into
    the light tree of [n]. *)
Lemma hosts_within_light_tree n :
  ids_within (descendants n ++ flat_map shadow_tree (descendants n)) (light_tree n).
Proof.
  induction n as [n IH] using node_ind.
  rewrite descendants_unfold. unfold light_tree.
  eapply ids_within_permutation.
  { rewrite flat_map_flat_map. apply flat_map_app_permutation. }
  apply ids_within_flat_map. intros c Hc. simpl.
  rewrite composed_nodes_split. apply ids_within_cons.
  eapply ids_within_permutation.
  { rewrite app_assoc.
    rewrite (Permutation_app_comm (descendants c) (shadow_tree c)).
    rewrite <- app_assoc. reflexivity. }
  apply ids_within_app; [apply ids_within_refl|].
  apply IH. now apply in_children_successors.
Qed.

Lemma all_in_shadow_roots_within self selector allElements :
  (forall sr found, self selector sr = Some (Ok found) ->
                    ids_within found (composed_nodes sr)) ->
  forall results res,
    all_in_shadow_roots self selector allElements results = Some (Ok res) ->
    ids_within res (results ++ flat_map shadow_tree allElements).
Proof.
  intros Self. induction allElements as [|el rest IH]; intros results res; simpl.
  - intros [= <-]. rewrite app_nil_r. apply ids_within_refl.
  - unfold shadow_tree at 1. destruct (shadowRoot el) as [sr|] eqn:SR; simpl.
    + destruct (self selector sr) as [[found|e]|] eqn:F; simpl; try discriminate.
      intros E. apply IH in E. eapply ids_within_trans; [exact E|].
      rewrite app_nil_r, <- !app_assoc.
      apply ids_within_app; [apply ids_within_refl|].
      apply ids_within_app; [now apply Self|apply ids_within_refl].
    + apply IH.
Qed.

Lemma unpatched_querySelectorAllShadow_within h fuel :
  forall selector root res,
    querySelectorAllShadow h Unpatched fuel selector root = Some (Ok res) ->
    ids_within res (light_tree root).
Proof.
  induction fuel as [|fuel IH]; intros selector root res; simpl; [discriminate|].
  unfold querySelectorAllShadow_body.
  rewrite !unpatched_call_querySelectorAll, native_all_elements.
  unfold native_querySelectorAll.
  destruct (native_valid h selector); simpl; [|discriminate].
  intros E. apply all_in_shadow_roots_within in E.
  - eapply ids_within_trans; [exact E|].
    eapply ids_within_trans; [|apply hosts_within_light_tree].
    apply ids_within_app; [apply ids_within_filter|].
    unfold ids_within. intros i.
    assert (forall l, flat_map shadow_tree (filter is_element l) = flat_map shadow_tree l)
      as Hosts.
    { induction l as [|a l IHl]; simpl; [reflexivity|].
      destruct (is_element a) eqn:El; simpl; [now rewrite IHl|].
      rewrite IHl. unfold shadow_tree at 2, shadowRoot. now rewrite El. }
    rewrite Hosts. lia.
  - intros sr found F. apply IH in F.
    eapply ids_within_trans; [exact F|].
    rewrite composed_nodes_split.
    apply (ids_within_app [] (sr :: shadow_tree sr)); [apply ids_within_nil|apply ids_within_refl].
Qed.

(** X4.  With pairwise distinct identities, for a selector without marker
    the recursive variant [querySelectorAllShadow] of the marker-gated
    script reports no node twice. *)
Theorem marker_free_querySelectorAllShadow_once h fuel selector root res :
  unique_ids root ->
  needsShadowSearch selector = false ->
  querySelectorAllShadow h MarkerGated fuel selector root = Some (Ok res) ->
  NoDup (map nid res).
Proof.
  intros U NoMarker E.
  rewrite querySelectorAllShadow_marker_free in E by assumption.
  apply unpatched_querySelectorAllShadow_within in E.
  apply (ids_within_NoDup res (composed_nodes root)); [|exact U].
  eapply ids_within_trans; [exact E|].
  rewrite composed_nodes_split.
  apply (ids_within_app [] (root :: shadow_tree root));
    [apply ids_within_nil|apply ids_within_refl].
Qed.

Lemma marker_free_querySelectorAllShadow_once_witness :
  NoDup (map nid [Sample.widget; Sample.button; Sample.span]).
Proof.
  apply (marker_free_querySelectorAllShadow_once Sample.engine 3 ".go" Sample.page).
  - apply sample_page_unique_ids.
  - reflexivity.
  - reflexivity.
Defined.

(** ** The recursive variant under the implicit script, in general *)

Lemma all_in_shadow_roots_counts self selector allElements :
  forall results res,
    all_in_shadow_roots self selector allElements results = Some (Ok res) ->
    forall i,
      count_occ Nat.eq_dec (map nid results) i <= count_occ Nat.eq_dec (map nid res) i
      /\ forall el sr found,
           In el allElements -> shadowRoot el = Some sr ->
           self selector sr = Some (Ok found) ->
           count_occ Nat.eq_dec (map nid results) i
           + count_occ Nat.eq_dec (map nid found) i
           <= count_occ Nat.eq_dec (map nid res) i.
Proof.
  induction allElements as [|el' rest IH]; intros results res; simpl.
  - intros [= <-] i. split; [lia|]. intros el sr found [].
  - destruct (shadowRoot el') as [sr'|] eqn:SR'.
    + destruct (self selector sr') as [[found'|e]|] eqn:F'; simpl; try discriminate.
      intros E i. destruct (IH _ _ E i) as [Keep Hosts].
      rewrite map_app, count_occ_app in Keep, Hosts. split; [lia|].
      intros el sr found [<-|Hel] SR F.
      * rewrite SR' in SR. injection SR as <-. rewrite F' in F. injection F as <-. lia.
      * specialize (Hosts el sr found Hel SR F). lia.
    + intros E i. destruct (IH _ _ E i) as [Keep Hosts]. split; [assumption|].
      intros el sr found [<-|Hel] SR F; [congruence|].
      now apply (Hosts el sr found).
Qed.

Lemma implicit_call_querySelectorAll_ok h recv selector :
  native_valid h selector = true ->
  exists res, call_querySelectorAll h Implicit recv selector = Ok res.
Proof.
  intros V. unfold call_querySelectorAll, prototype_querySelectorAll.
  destruct (is_shadow_root recv).
  - unfold native_querySelectorAll. rewrite V. eexists; reflexivity.
  - apply while_pending_total. assumption.
Qed.

Lemma all_in_shadow_roots_ok self selector :
  forall allElements results,
    (forall el sr, In el allElements -> shadowRoot el = Some sr ->
                   exists found, self selector sr = Some (Ok found)) ->
    exists res, all_in_shadow_roots self selector allElements results = Some (Ok res).
Proof.
  induction allElements as [|el rest IH]; intros results Self; simpl.
  - eexists; reflexivity.
  - destruct (shadowRoot el) as [sr|] eqn:SR.
    + destruct (Self el sr (or_introl eq_refl) SR) as (found & ->); simpl.
      apply IH. intros el' sr' H. apply Self. now right.
    + apply IH. intros el' sr' H. apply Self. now right.
Qed.

Lemma implicit_querySelectorAllShadow_ok h selector fuel :
  native_valid h selector = true ->
  forall root,
    csize root <= fuel ->
    exists res, querySelectorAllShadow h Implicit fuel selector root = Some (Ok res).
Proof.
  intros V. induction fuel as [|fuel IH]; intros root B.
  - pose proof (csize_pos root). lia.
  - simpl. unfold querySelectorAllShadow_body, lift. simpl bind.
    destruct (implicit_call_querySelectorAll_ok h root selector V) as (own & ->).
    destruct (implicit_call_querySelectorAll_ok h root "*" eq_refl) as (allElements & All).
    rewrite All. apply all_in_shadow_roots_ok. intros el sr Hel SR. apply IH.
    pose proof (call_querySelectorAll_below _ _ _ _ _ All el Hel) as Below.
    apply composed_descendant_smaller in Below.
    pose proof (csize_successor el sr (shadowRoot_successor _ _ SR)). lia.
Qed.

(** X6.  After src/unnamed/part_000 is loaded, for a selector that does not
    depend on the scoping root (no [:scope]): whenever the selector holds of
    a light-DOM descendant [x] of the shadow root of a host [el] below the
    root, [querySelectorAllShadow] reports [x] at least twice. *)
Theorem implicit_querySelectorAllShadow_reports_twice h fuel selector root el sr x :
  scope_free h selector ->
  unique_ids root ->
  is_shadow_root root = false ->
  In el (composed_descendants root) ->
  shadowRoot el = Some sr ->
  is_shadow_root sr = true ->
  In x (descendants sr) ->
  native_matches h x selector = Ok true ->
  csize root <= fuel ->
  exists res,
    querySelectorAllShadow h Implicit fuel selector root = Some (Ok res)
    /\ 2 <= count_occ Nat.eq_dec (map nid res) (nid x).
Proof.
  intros Free U Root Hel SR Frag Hx Hit B.
  assert (native_valid h selector = true /\ native_holds h x selector = true) as (V & Holds).
  { unfold native_matches in Hit. destruct (native_valid h selector); [|discriminate].
    injection Hit as Hit. auto. }
  assert (In x (composed_descendants root)) as Below.
  { apply composed_descendants_trans with sr.
    - apply composed_descendants_trans with el; [assumption|].
      rewrite composed_nodes_unfold. right.
      apply in_successors_composed. now apply shadowRoot_successor.
    - rewrite composed_nodes_unfold. right. now apply descendants_composed. }
  destruct (implicit_querySelectorAllShadow_ok h selector fuel V root B) as (res & E).
  exists res. split; [assumption|].
  destruct fuel as [|fuel]; [discriminate|]. simpl in E.
  unfold querySelectorAllShadow_body, lift in E. simpl bind in E.
  unfold call_querySelectorAll, prototype_querySelectorAll in E. rewrite Root in E.
  destruct (queue_variant_finds_once h selector root x U Below Hit)
    as (own & Own & Hown & _).
  assert (native_matches h el "*" = Ok true) as Star.
  { unfold native_matches, native_valid. simpl. rewrite native_star.
    now rewrite (shadowRoot_is_element el sr SR). }
  destruct (queue_variant_finds_once h "*" root el U Hel Star)
    as (allElements & All & Hall & _).
  rewrite Own, All in E. simpl in E.
  assert (csize sr <= fuel) as Bsr.
  { apply composed_descendant_smaller in Hel.
    pose proof (csize_successor el sr (shadowRoot_successor _ _ SR)). lia. }
  destruct (implicit_querySelectorAllShadow_ok h selector fuel V sr Bsr) as (found & F).
  assert (1 <= count_occ Nat.eq_dec (map nid found) (nid x)) as InFound.
  { destruct fuel as [|fuel']; [discriminate|]. simpl in F.
    unfold querySelectorAllShadow_body, lift in F. simpl bind in F.
    unfold call_querySelectorAll in F. rewrite Frag in F.
    rewrite (scope_free_querySelectorAll h selector sr Free V) in F.
    destruct (native_querySelectorAll h sr "*") as [hosts|e]; [|discriminate].
    simpl in F.
    destruct (all_in_shadow_roots_counts _ _ _ _ _ F (nid x)) as [Keep _].
    assert (In (nid x) (map nid (filter (fun n => native_holds h n selector)
                                        (descendants sr)))) as Hin
      by (apply in_map, filter_In; auto).
    apply (count_occ_In Nat.eq_dec) in Hin. lia. }
  destruct (all_in_shadow_roots_counts _ _ _ _ _ E (nid x)) as [_ Hosts].
  specialize (Hosts el sr found Hall SR F).
  assert (In (nid x) (map nid own)) as Hin by now apply in_map.
  apply (count_occ_In Nat.eq_dec) in Hin. lia.
Qed.

Lemma implicit_querySelectorAllShadow_reports_twice_witness :
  exists res,
    querySelectorAllShadow Sample.engine Implicit 12 ".go" Sample.page = Some (Ok res)
    /\ 2 <= count_occ Nat.eq_dec (map nid res) (nid Sample.button).
Proof.
  apply (implicit_querySelectorAllShadow_reports_twice
           Sample.engine 12 ".go" Sample.page Sample.widget Sample.widget_root Sample.button).
  - intros scope n. reflexivity.
  - apply sample_page_unique_ids.
  - reflexivity.
  - simpl. auto 20.
  - reflexivity.
  - reflexivity.
  - simpl. auto.
  - reflexivity.
  - vm_compute. lia.
Defined.

(** ** [closestShadow] inside one tree *)

Lemma closestShadow_step doc h fuel element selector :
  native_valid h selector = true ->
  closestShadow doc h (S fuel) (Some element) selector =
  if native_holds h element selector then Some (Ok (Some element))
  else match parentElement doc element with
       | Some q => closestShadow doc h fuel (Some q) selector
       | None => Some (Throw TypeError)
       end.
Proof.
  intros V. simpl.
  unfold call_matches, native_matches, has_matches, native_holds, native_holds_from.
  rewrite V. destruct (is_element element); simpl.
  - destruct (String.eqb selector "*" || selector_holds h element element selector); simpl;
      [reflexivity|].
    destruct (parentElement doc element); reflexivity.
  - destruct (parentElement doc element); reflexivity.
Qed.

(** X8.  Along the [parentElement] chain [closestShadow] behaves as the
    native [closest]: for a selector the engine parses, the nearest node of
    the chain the selector holds of -- the [k]-th, when it holds of none of
    the [k] nodes before it -- is returned, once the loop may run [k + 1]
    times. *)
Theorem closestShadow_nearest_match doc h selector k :
  forall fuel element found,
    native_valid h selector = true ->
    ancestor doc k element = Some found ->
    native_holds h found selector = true ->
    (forall j a, j < k -> ancestor doc j element = Some a ->
                 native_holds h a selector = false) ->
    closestShadow doc h (S k + fuel) (Some element) selector = Some (Ok (Some found)).
Proof.
  induction k as [|k IH]; intros fuel element found V A Hit Before.
  - injection A as <-. rewrite closestShadow_step by assumption. now rewrite Hit.
  - change (S (S k) + fuel) with (S (S k + fuel)).
    rewrite closestShadow_step by assumption.
    rewrite (Before 0 element) by (simpl; auto; lia).
    simpl in A. destruct (parentElement doc element) as [q|] eqn:P; [|discriminate].
    apply IH; auto. intros j a L Aj. apply (Before (S j) a); [lia|].
    simpl. now rewrite P.
Qed.

Lemma closestShadow_nearest_match_witness :
  closestShadow Sample.page Sample.engine 5 (Some Sample.para) ".outer"
  = Some (Ok (Some Sample.section)).
Proof.
  apply (closestShadow_nearest_match Sample.page Sample.engine ".outer" 1 3).
  - reflexivity.
  - reflexivity.
  - reflexivity.
  - intros j a L. assert (j = 0) as -> by lia. intros [= <-]. reflexivity.
Defined.

(** X9.  What [closestShadow] returns is the nearest match of the
    [parentElement] chain: a returned node is some [k]-th node of the chain
    from the starting element, the selector holds of it, and of none of the
    [k] nodes before it.  Nothing outside the chain -- no shadow host, no
    node of another tree -- is ever returned. *)
Theorem closestShadow_returns_chain_node doc h fuel :
  forall element selector found,
    closestShadow doc h fuel (Some element) selector = Some (Ok (Some found)) ->
    exists k,
      ancestor doc k element = Some found
      /\ native_holds h found selector = true
      /\ forall j a, j < k -> ancestor doc j element = Some a ->
                     native_holds h a selector = false.
Proof.
  induction fuel as [|fuel IH]; intros element selector found; simpl; [discriminate|].
  unfold call_matches, native_matches, has_matches.
  destruct (is_element element) eqn:El.
  - destruct (native_valid h selector); simpl; [|discriminate].
    destruct (native_holds h element selector) eqn:Hit; simpl.
    + intros [= <-]. exists 0. repeat split; auto. intros j a L. lia.
    + destruct (parentElement doc element) as [q|] eqn:P; simpl; [|discriminate].
      intros E. destruct (IH _ _ _ E) as (k & A & Hk & Before).
      exists (S k). simpl. rewrite P. repeat split; auto.
      intros [|j] a L; simpl.
      * intros [= <-]. assumption.
      * rewrite P. apply Before. lia.
  - simpl. destruct (parentElement doc element) as [q|] eqn:P; simpl; [|discriminate].
    intros E. destruct (IH _ _ _ E) as (k & A & Hk & Before).
    exists (S k). simpl. rewrite P. repeat split; auto.
    intros [|j] a L; simpl.
    + intros [= <-]. unfold native_holds, native_holds_from. now rewrite El.
    + rewrite P. apply Before. lia.
Qed.

Lemma closestShadow_returns_chain_node_witness :
  exists k,
    ancestor Sample.page k Sample.para = Some Sample.section
    /\ native_holds Sample.engine Sample.section ".outer" = true
    /\ forall j a, j < k -> ancestor Sample.page j Sample.para = Some a ->
                   native_holds Sample.engine a ".outer" = false.
Proof.
  apply (closestShadow_returns_chain_node Sample.page Sample.engine 5
           Sample.para ".outer" Sample.section).
  reflexivity.
Defined.

(** X10.  When the selector (one the engine parses) holds of no node of the
    [parentElement] chain, [closestShadow] ends in a [TypeError] at the top
    of the chain -- the node without parent element, be it [html] or the
    topmost element of a shadow tree -- once the loop may run that far. *)
Theorem closestShadow_no_match_throws doc h selector k :
  forall fuel element top,
    native_valid h selector = true ->
    ancestor doc k element = Some top ->
    parentElement doc top = None ->
    (forall j a, j <= k -> ancestor doc j element = Some a ->
                 native_holds h a selector = false) ->
    closestShadow doc h (S k + fuel) (Some element) selector = Some (Throw TypeError).
Proof.
  induction k as [|k IH]; intros fuel element top V A Top None_.
  - injection A as <-. rewrite closestShadow_step by assumption.
    rewrite (None_ 0 element) by (simpl; auto). now rewrite Top.
  - change (S (S k) + fuel) with (S (S k + fuel)).
    rewrite closestShadow_step by assumption.
    rewrite (None_ 0 element) by (simpl; auto; lia).
    simpl in A. destruct (parentElement doc element) as [q|] eqn:P; [|discriminate].
    apply (IH fuel q top); auto. intros j a L Aj. apply (None_ (S j) a); [lia|].
    simpl. now rewrite P.
Qed.

Lemma closestShadow_no_match_throws_witness :
  closestShadow Sample.page Sample.engine 2 (Some Sample.button) ".outer"
  = Some (Throw TypeError).
Proof.
  apply (closestShadow_no_match_throws Sample.page Sample.engine ".outer" 1 0
           Sample.button Sample.div).
  - reflexivity.
  - reflexivity.
  - reflexivity.
  - intros [|[|j]] a L; [intros [= <-]; reflexivity|intros [= <-]; reflexivity|lia].
Defined.

(** ** More on the recursive variants *)

(** X11.  The marker-gated script is transparent for selectors without
    marker: [querySelectorShadow] and [querySelectorAllShadow], whose
    [root.querySelector] and [root.querySelectorAll] are the replaced
    methods, compute what they compute on a page without the script, at
    every nesting depth. *)
Theorem marker_gated_script_is_transparent h fuel selector root :
  needsShadowSearch selector = false ->
  querySelectorShadow h MarkerGated fuel selector root
  = querySelectorShadow h Unpatched fuel selector root
  /\ querySelectorAllShadow h MarkerGated fuel selector root
     = querySelectorAllShadow h Unpatched fuel selector root.
Proof.
  intros NoMarker. split.
  - now apply querySelectorShadow_marker_free.
  - now apply querySelectorAllShadow_marker_free.
Qed.

Lemma marker_gated_script_is_transparent_witness :
  querySelectorShadow Sample.engine MarkerGated 5 ".go" Sample.page
  = querySelectorShadow Sample.engine Unpatched 5 ".go" Sample.page
  /\ querySelectorAllShadow Sample.engine MarkerGated 5 ".go" Sample.page
     = querySelectorAllShadow Sample.engine Unpatched 5 ".go" Sample.page.
Proof. apply marker_gated_script_is_transparent. reflexivity. Defined.

Lemma all_in_shadow_roots_appends self selector allElements :
  forall results res,
    all_in_shadow_roots self selector allElements results = Some (Ok res) ->
    exists rest, res = results ++ rest.
Proof.
  induction allElements as [|el tl IH]; intros results res; simpl.
  - intros [= <-]. exists []. now rewrite app_nil_r.
  - destruct (shadowRoot el) as [sr|]; [|apply IH].
    destruct (self selector sr) as [[found|e]|]; simpl; try discriminate.
    intros E. destruct (IH _ _ E) as (rest & ->).
    exists (found ++ rest). now rewrite app_assoc.
Qed.

(** X12.  Under either script, and with none: a sequence
    [querySelectorAllShadow] returns begins with what
    [root.querySelectorAll(selector)] returns on that page; the matches
    found in shadow trees follow. *)
Theorem querySelectorAllShadow_starts_with_querySelectorAll h p fuel selector root res :
  querySelectorAllShadow h p fuel selector root = Some (Ok res) ->
  exists own rest,
    querySelectorAll h p root selector = Ok own /\ res = own ++ rest.
Proof.
  destruct fuel as [|fuel]; simpl; [discriminate|].
  unfold querySelectorAllShadow_body, querySelectorAll, lift. simpl bind.
  destruct (call_querySelectorAll h p root selector) as [own|e]; [|discriminate].
  destruct (call_querySelectorAll h p root "*") as [allElements|e]; [|discriminate].
  intros E. apply all_in_shadow_roots_appends in E. destruct E as (rest & ->).
  exists own, rest. auto.
Qed.

Lemma querySelectorAllShadow_starts_with_querySelectorAll_witness :
  exists own rest,
    querySelectorAll Sample.engine MarkerGated Sample.page ".go" = Ok own
    /\ [Sample.widget; Sample.button; Sample.span] = own ++ rest.
Proof.
  apply (querySelectorAllShadow_starts_with_querySelectorAll
           Sample.engine MarkerGated 3 ".go" Sample.page).
  reflexivity.
Defined.

Lemma find_hd_filter {A} (f : A -> bool) l : find f l = hd_error (filter f l).
Proof.
  induction l as [|a l IH]; simpl; [reflexivity|]. now destruct (f a).
Qed.

Lemma shadow_loops_agree self_first self_all selector allElements :
  (forall el sr, In el allElements -> shadowRoot el = Some sr ->
     exists found, self_all selector sr = Some (Ok found)
                   /\ self_first selector sr = Some (Ok (hd_error found))) ->
  forall results,
    exists rest,
      all_in_shadow_roots self_all selector allElements results
      = Some (Ok (results ++ rest))
      /\ first_in_shadow_roots self_first selector allElements
         = Some (Ok (hd_error rest)).
Proof.
  induction allElements as [|el tl IH]; intros Self results; simpl.
  - exists []. now rewrite app_nil_r.
  - assert (forall el' sr', In el' tl -> shadowRoot el' = Some sr' ->
       exists found, self_all selector sr' = Some (Ok found)
                     /\ self_first selector sr' = Some (Ok (hd_error found))) as Self'
      by (intros el' sr' H; apply Self; now right).
    destruct (shadowRoot el) as [sr|] eqn:SR; [|now apply IH].
    destruct (Self el sr (or_introl eq_refl) SR) as (found & -> & ->). simpl.
    destruct (IH Self' (results ++ found)) as (rest & -> & First).
    exists (found ++ rest). rewrite app_assoc. split; [reflexivity|].
    destruct found as [|e found]; simpl; [assumption|reflexivity].
Qed.

Lemma unpatched_first_is_head h selector fuel :
  native_valid h selector = true ->
  forall root,
    csize root <= fuel ->
    exists res,
      querySelectorAllShadow h Unpatched fuel selector root = Some (Ok res)
      /\ querySelectorShadow h Unpatched fuel selector root = Some (Ok (hd_error res)).
Proof.
  intros V. induction fuel as [|fuel IH]; intros root B.
  - pose proof (csize_pos root). lia.
  - simpl. unfold querySelectorAllShadow_body, querySelectorShadow_body.
    rewrite unpatched_call_querySelector, !unpatched_call_querySelectorAll.
    rewrite native_all_elements.
    unfold native_querySelectorAll, native_querySelector. rewrite V. simpl.
    rewrite find_hd_filter.
    destruct (shadow_loops_agree
                (querySelectorShadow h Unpatched fuel)
                (querySelectorAllShadow h Unpatched fuel)
                selector (filter is_element (descendants root)))
      with (results := filter (fun n => native_holds_from h root n selector)
                              (descendants root))
      as (rest & -> & First).
    { intros el sr Hel SR. apply IH.
      apply filter_In in Hel. destruct Hel as [Hel _].
      pose proof (descendant_host_smaller root el sr Hel SR). lia. }
    eexists. split; [reflexivity|].
    destruct (filter (fun n => native_holds_from h root n selector) (descendants root))
      as [|e own]; simpl; [assumption|reflexivity].
Qed.

(** X13.  For a selector without marker that the engine parses, findFirst is
    the head of findAll: [querySelectorShadow] returns the first element of
    the sequence [querySelectorAllShadow] returns, and [null] when that
    sequence is empty. *)
Theorem querySelectorShadow_is_head_of_querySelectorAllShadow h fuel selector root :
  needsShadowSearch selector = false ->
  native_valid h selector = true ->
  csize root <= fuel ->
  exists res,
    querySelectorAllShadow h MarkerGated fuel selector root = Some (Ok res)
    /\ querySelectorShadow h MarkerGated fuel selector root = Some (Ok (hd_error res)).
Proof.
  intros NoMarker V B.
  rewrite querySelectorShadow_marker_free, querySelectorAllShadow_marker_free by assumption.
  now apply unpatched_first_is_head.
Qed.

Lemma querySelectorShadow_is_head_of_querySelectorAllShadow_witness :
  exists res,
    querySelectorAllShadow Sample.engine MarkerGated 12 ".go" Sample.page = Some (Ok res)
    /\ querySelectorShadow Sample.engine MarkerGated 12 ".go" Sample.page
       = Some (Ok (hd_error res)).
Proof.
  apply querySelectorShadow_is_head_of_querySelectorAllShadow.
  - reflexivity.
  - reflexivity.
  - vm_compute. lia.
Defined.

Lemma first_in_shadow_roots_origin self selector allElements y :
  first_in_shadow_roots self selector allElements = Some (Ok (Some y)) ->
  exists el sr,
    In el allElements /\ shadowRoot el = Some sr
    /\ self selector sr = Some (Ok (Some y)).
Proof.
  induction allElements as [|el tl IH]; simpl; [discriminate|].
  destruct (shadowRoot el) as [sr|] eqn:SR.
  - destruct (self selector sr) as [[[e|]|e]|] eqn:F; simpl; try discriminate.
    + intros [= <-]. exists el, sr. auto.
    + intros E. destruct (IH E) as (el' & sr' & H & SR' & F'). exists el', sr'. auto.
  - intros E. destruct (IH E) as (el' & sr' & H & SR' & F'). exists el', sr'. auto.
Qed.

Lemma all_in_shadow_roots_origin self selector allElements :
  forall results res,
    all_in_shadow_roots self selector allElements results = Some (Ok res) ->
    forall x, In x res ->
      In x results
      \/ exists el sr found,
           In el allElements /\ shadowRoot el = Some sr
           /\ self selector sr = Some (Ok found) /\ In x found.
Proof.
  induction allElements as [|el tl IH]; intros results res; simpl.
  - intros [= <-] x Hx. now left.
  - destruct (shadowRoot el) as [sr|] eqn:SR.
    + destruct (self selector sr) as [[found|e]|] eqn:F; simpl; try discriminate.
      intros E x Hx. destruct (IH _ _ E x Hx) as [H|(el' & sr' & found' & H & R)].
      * apply in_app_or in H. destruct H as [H|H]; [now left|].
        right. exists el, sr, found. auto.
      * right. exists el', sr', found'. auto.
    + intros E x Hx. destruct (IH _ _ E x Hx) as [H|(el' & sr' & found' & H & R)];
        [now left|].
      right. exists el', sr', found'. auto.
Qed.

Lemma host_tree_below root el sr x :
  In el (descendants root) -> shadowRoot el = Some sr ->
  In x (composed_descendants sr) -> In x (composed_descendants root).
Proof.
  intros Hel SR Hx. apply composed_descendants_trans with sr.
  - apply composed_descendants_trans with el; [now apply descendants_composed|].
    rewrite composed_nodes_unfold. right.
    apply in_successors_composed. now apply shadowRoot_successor.
  - rewrite composed_nodes_unfold. now right.
Qed.

Lemma unpatched_querySelectorShadow_sound h selector fuel :
  scope_free h selector ->
  forall root y,
    querySelectorShadow h Unpatched fuel selector root = Some (Ok (Some y)) ->
    native_matches h y selector = Ok true /\ In y (composed_descendants root).
Proof.
  intros Free. induction fuel as [|fuel IH]; intros root y; simpl; [discriminate|].
  unfold querySelectorShadow_body.
  rewrite unpatched_call_querySelector, unpatched_call_querySelectorAll.
  rewrite native_all_elements. unfold native_querySelector, native_matches.
  destruct (native_valid h selector); simpl; [|discriminate].
  destruct (find (fun n => native_holds_from h root n selector) (descendants root))
    as [e|] eqn:F.
  - intros [= <-]. apply find_some in F. destruct F as [Hin He].
    rewrite (scope_free_holds _ _ _ _ Free) in He. rewrite He.
    split; [reflexivity|now apply descendants_composed].
  - intros E. apply first_in_shadow_roots_origin in E.
    destruct E as (el & sr & Hel & SR & E).
    apply filter_In in Hel. destruct Hel as [Hel _].
    apply IH in E. destruct E as [Hy By]. unfold native_matches in Hy.
    split; [|now apply (host_tree_below root el sr)].
    destruct (native_valid h selector); [assumption|discriminate].
Qed.

Lemma unpatched_querySelectorAllShadow_sound h selector fuel :
  scope_free h selector ->
  forall root res,
    querySelectorAllShadow h Unpatched fuel selector root = Some (Ok res) ->
    forall x, In x res ->
      native_matches h x selector = Ok true /\ In x (composed_descendants root).
Proof.
  intros Free. induction fuel as [|fuel IH]; intros root res; simpl; [discriminate|].
  unfold querySelectorAllShadow_body.
  rewrite !unpatched_call_querySelectorAll, native_all_elements.
  unfold native_querySelectorAll, native_matches.
  destruct (native_valid h selector) eqn:V; simpl; [|discriminate].
  intros E x Hx.
  destruct (all_in_shadow_roots_origin _ _ _ _ _ E x Hx)
    as [H|(el & sr & found & Hel & SR & F & Hf)].
  - apply filter_In in H. destruct H as [Hin He].
    rewrite (scope_free_holds _ _ _ _ Free) in He. rewrite He.
    split; [reflexivity|now apply descendants_composed].
  - apply filter_In in Hel. destruct Hel as [Hel _].
    destruct (IH _ _ F x Hf) as [Hy By]. unfold native_matches in Hy. rewrite V in Hy.
    split; [assumption|now apply (host_tree_below root el sr)].
Qed.

(** X14.  Soundness of the recursive variants, for a selector without
    marker that does not depend on the scoping root (no [:scope]), and at
    every nesting depth: the element [querySelectorShadow] returns, and
    every element of a sequence [querySelectorAllShadow] returns, is one
    the selector holds of, as [matches] tells, and lies strictly below the
    root in the composed tree. *)
Theorem recursive_variants_sound h fuel selector root :
  needsShadowSearch selector = false ->
  scope_free h selector ->
  (forall y,
      querySelectorShadow h MarkerGated fuel selector root = Some (Ok (Some y)) ->
      native_matches h y selector = Ok true /\ In y (composed_descendants root))
  /\ (forall res,
        querySelectorAllShadow h MarkerGated fuel selector root = Some (Ok res) ->
        forall x, In x res ->
          native_matches h x selector = Ok true /\ In x (composed_descendants root)).
Proof.
  intros NoMarker Free.
  rewrite querySelectorShadow_marker_free, querySelectorAllShadow_marker_free by assumption.
  split.
  - intros y. now apply unpatched_querySelectorShadow_sound.
  - intros res. now apply unpatched_querySelectorAllShadow_sound.
Qed.

Lemma recursive_variants_sound_witness :
  native_matches Sample.engine Sample.widget ".go" = Ok true
  /\ In Sample.widget (composed_descendants Sample.page).
Proof.
  destruct (recursive_variants_sound Sample.engine 3 ".go" Sample.page eq_refl
              (fun scope n => eq_refl))
    as [first _].
  apply first. reflexivity.
Defined.

(** ** The implicit script on shadow roots *)

Lemma first_in_shadow_roots_ext_on self1 self2 selector allElements :
  (forall el sr, In el allElements -> shadowRoot el = Some sr ->
                 self1 selector sr = self2 selector sr) ->
  first_in_shadow_roots self1 selector allElements
  = first_in_shadow_roots self2 selector allElements.
Proof.
  induction allElements as [|el tl IH]; intros E; simpl; [reflexivity|].
  assert (first_in_shadow_roots self1 selector tl
          = first_in_shadow_roots self2 selector tl) as Tl
    by (apply IH; intros el' sr' H; apply E; now right).
  destruct (shadowRoot el) as [sr|] eqn:SR; [|assumption].
  rewrite (E el sr (or_introl eq_refl) SR), Tl. reflexivity.
Qed.

Lemma all_in_shadow_roots_ext_on self1 self2 selector allElements :
  (forall el sr, In el allElements -> shadowRoot el = Some sr ->
                 self1 selector sr = self2 selector sr) ->
  forall results,
    all_in_shadow_roots self1 selector allElements results
    = all_in_shadow_roots self2 selector allElements results.
Proof.
  induction allElements as [|el tl IH]; intros E results; simpl; [reflexivity|].
  assert (forall r, all_in_shadow_roots self1 selector tl r
                    = all_in_shadow_roots self2 selector tl r) as Tl
    by (apply IH; intros el' sr' H; apply E; now right).
  destruct (shadowRoot el) as [sr|] eqn:SR; [|apply Tl].
  rewrite (E el sr (or_introl eq_refl) SR).
  destruct (self2 selector sr) as [[found|e]|]; simpl; auto.
Qed.

Lemma typed_below root n :
  shadow_roots_typed root -> In n (composed_nodes root) -> shadow_roots_typed n.
Proof.
  intros T Hn m sr Hm. apply T. now apply composed_nodes_trans with n.
Qed.

Lemma host_in_composed_nodes root el sr :
  In el (descendants root) -> shadowRoot el = Some sr ->
  In el (composed_nodes root) /\ In sr (composed_nodes root).
Proof.
  intros Hel SR.
  assert (In el (composed_nodes root)) as H
    by (rewrite composed_nodes_unfold; right; now apply descendants_composed).
  split; [assumption|].
  apply composed_nodes_trans with el; [assumption|].
  rewrite composed_nodes_unfold. right.
  apply in_successors_composed. now apply shadowRoot_successor.
Qed.

(** X15.  After src/unnamed/part_000 is loaded the recursive methods still
    work when the root is a shadow root of a DOM tree:
    [querySelectorShadow(selector, root)] and
    [querySelectorAllShadow(selector, root)] compute what they compute with
    the native methods, at every nesting depth -- the replaced methods are
    never reached from a shadow root. *)
Theorem implicit_script_on_shadow_roots h fuel :
  forall selector root,
    is_shadow_root root = true ->
    shadow_roots_typed root ->
    querySelectorShadow h Implicit fuel selector root
    = querySelectorShadow h Unpatched fuel selector root
    /\ querySelectorAllShadow h Implicit fuel selector root
       = querySelectorAllShadow h Unpatched fuel selector root.
Proof.
  induction fuel as [|fuel IH]; intros selector root R T; simpl; [auto|].
  unfold querySelectorShadow_body, querySelectorAllShadow_body.
  rewrite unpatched_call_querySelector, !unpatched_call_querySelectorAll.
  unfold call_querySelector, call_querySelectorAll. rewrite R.
  rewrite native_all_elements.
  assert (forall el sr,
            In el (filter is_element (descendants root)) -> shadowRoot el = Some sr ->
            querySelectorShadow h Implicit fuel selector sr
            = querySelectorShadow h Unpatched fuel selector sr
            /\ querySelectorAllShadow h Implicit fuel selector sr
               = querySelectorAllShadow h Unpatched fuel selector sr) as Hosts.
  { intros el sr Hel SR. apply filter_In in Hel. destruct Hel as [Hel _].
    destruct (host_in_composed_nodes root el sr Hel SR) as [Iel Isr].
    apply IH; [now apply (T el sr)|now apply typed_below with root]. }
  split.
  - destruct (native_querySelector h root selector) as [[e|]|e]; simpl; try reflexivity.
    apply first_in_shadow_roots_ext_on. intros el sr Hel SR.
    now destruct (Hosts el sr Hel SR).
  - destruct (native_querySelectorAll h root selector) as [own|e]; simpl; try reflexivity.
    apply all_in_shadow_roots_ext_on. intros el sr Hel SR.
    now destruct (Hosts el sr Hel SR).
Qed.

Lemma sample_widget_root_typed : shadow_roots_typed Sample.widget_root.
Proof.
  intros n sr Hn SR. simpl in Hn.
  repeat (destruct Hn as [<-|Hn]; [try discriminate SR; injection SR as <-; reflexivity|]).
  destruct Hn.
Qed.

Lemma implicit_script_on_shadow_roots_witness :
  querySelectorShadow Sample.engine Implicit 4 ".go" Sample.widget_root
  = querySelectorShadow Sample.engine Unpatched 4 ".go" Sample.widget_root
  /\ querySelectorAllShadow Sample.engine Implicit 4 ".go" Sample.widget_root
     = querySelectorAllShadow Sample.engine Unpatched 4 ".go" Sample.widget_root.
Proof.
  apply implicit_script_on_shadow_roots.
  - reflexivity.
  - apply sample_widget_root_typed.
Defined.

(** ** What cleaning leaves behind *)

Lemma remove_token_nil tok : remove_token tok EmptyString = EmptyString.
Proof. now simp remove_token. Qed.

Lemma remove_token_cons tok c rest :
  remove_token tok (String c rest) =
  if String.prefix tok (String c rest)
  then remove_token tok (skip_spaces (drop (String.length tok - 1) rest))
  else String c (remove_token tok rest).
Proof.
  simp remove_token. destruct (String.prefix tok (String c rest)); reflexivity.
Qed.

Lemma prefix_cons_cons a s1 b s2 :
  String.prefix (String a s1) (String b s2) =
  if ascii_dec a b then String.prefix s1 s2 else false.
Proof. reflexivity. Qed.

Lemma prefix_empty s : String.prefix EmptyString s = true.
Proof. now destruct s. Qed.

Lemma prefix_gt_tail (tok : string) c rest :
  String.prefix (String ">" tok) (String c rest) = true ->
  c = ">"%char /\ String.prefix tok rest = true.
Proof.
  rewrite prefix_cons_cons. destruct (ascii_dec ">" c) as [<-|N]; [auto|discriminate].
Qed.

Lemma prefix_gt_cons (tok : string) rest :
  String.prefix (String ">" tok) (String ">" rest) = String.prefix tok rest.
Proof.
  rewrite prefix_cons_cons. destruct (ascii_dec ">" ">") as [_|N]; [reflexivity|congruence].
Qed.

Lemma prefix_other (tok : string) c rest :
  c <> ">"%char -> String.prefix (String ">" tok) (String c rest) = false.
Proof.
  intros N. rewrite prefix_cons_cons.
  destruct (ascii_dec ">" c) as [E|_]; [congruence|reflexivity].
Qed.

(** After the pass for [>>>] a kept [>] is never followed by a removal, so
    what the result starts with, the input started with. *)
Lemma remove_gt_head n :
  forall t, String.length t <= n ->
    (String.prefix ">" (remove_token ">>>" t) = true -> String.prefix ">" t = true)
    /\ (String.prefix ">>" (remove_token ">>>" t) = true -> String.prefix ">>" t = true).
Proof.
  induction n as [|n IH]; intros [|c rest] L; simpl in L; try lia;
    rewrite ?remove_token_nil; try (split; discriminate).
  rewrite remove_token_cons.
  destruct (String.prefix ">>>" (String c rest)) eqn:P.
  - apply prefix_gt_tail in P. destruct P as [-> P].
    destruct rest as [|c' rest']; [discriminate|].
    apply prefix_gt_tail in P. destruct P as [-> P].
    split; intros _; rewrite !prefix_gt_cons; apply prefix_empty.
  - destruct (ascii_dec c ">") as [->|N].
    + rewrite !prefix_gt_cons. split; [intros _; apply prefix_empty|].
      apply (IH rest); lia.
    + rewrite !(prefix_other _ c) by assumption. split; discriminate.
Qed.

Lemma remove_gt_clean n :
  forall t, String.length t <= n -> includes ">>>" (remove_token ">>>" t) = false.
Proof.
  induction n as [|n IH]; intros [|c rest] L; simpl in L; try lia;
    rewrite ?remove_token_nil; try reflexivity.
  rewrite remove_token_cons.
  destruct (String.prefix ">>>" (String c rest)) eqn:P.
  - apply IH.
    pose proof (skip_spaces_length (drop (String.length ">>>" - 1) rest)).
    pose proof (drop_length (String.length ">>>" - 1) rest). lia.
  - rewrite includes_cons, (IH rest) by lia. rewrite orb_false_r.
    destruct (ascii_dec c ">") as [->|N]; [|now apply prefix_other].
    rewrite prefix_gt_cons in *.
    destruct (String.prefix ">>" (remove_token ">>>" rest)) eqn:Q; [|reflexivity].
    apply (remove_gt_head (String.length rest) rest (le_n _)) in Q. congruence.
Qed.

Lemma includes_empty tok : includes tok EmptyString = true -> tok = EmptyString.
Proof. destruct tok; simpl; [reflexivity|discriminate]. Qed.

Lemma includes_skip_spaces tok s :
  includes tok (skip_spaces s) = true -> includes tok s = true.
Proof.
  induction s as [|c s IH]; [auto|]. simpl skip_spaces.
  destruct (is_space c); [|auto]. intros H. rewrite includes_cons.
  rewrite (IH H). apply orb_true_r.
Qed.

Lemma prefix_trim_end s :
  forall tok, String.prefix tok (trim_end s) = true -> String.prefix tok s = true.
Proof.
  induction s as [|c s IH]; intros tok; [auto|]. simpl trim_end.
  destruct tok as [|a tok]; [reflexivity|].
  destruct (trim_end s) as [|k kept] eqn:T.
  - destruct (is_space c); [discriminate|]. rewrite !prefix_cons_cons.
    destruct (ascii_dec a c); [|discriminate]. intros H. apply (IH tok).
    destruct tok; [reflexivity|discriminate].
  - rewrite !prefix_cons_cons. destruct (ascii_dec a c); [|discriminate]. apply IH.
Qed.

Lemma includes_trim_end tok s :
  includes tok (trim_end s) = true -> includes tok s = true.
Proof.
  induction s as [|c s IH]; [auto|]. intros H.
  rewrite includes_cons. apply orb_true_iff.
  assert (String.prefix tok (trim_end (String c s)) = true
          \/ includes tok (trim_end s) = true) as [P|I].
  { simpl trim_end in *. destruct (trim_end s) as [|k kept] eqn:T.
    - destruct (is_space c).
      + apply includes_empty in H. subst. now left.
      + rewrite includes_cons in H. apply orb_true_iff in H. destruct H; auto.
    - rewrite includes_cons in H. apply orb_true_iff in H. destruct H; auto. }
  - left. now apply prefix_trim_end.
  - right. now apply IH.
Qed.

(** X16.  Whatever the selector, the string [cleanSelector] returns does
    not contain [>>>]: the pass for [>>>] runs last, and removing [>>>]
    cannot splice a new [>>>] together.  ([:shadow] can survive, as its pass
    runs first.) *)
Theorem cleanSelector_leaves_no_descendant_marker selector :
  includes ">>>" (cleanSelector selector) = false.
Proof.
  unfold cleanSelector, trim, trim_start.
  destruct (includes ">>>"
              (trim_end (skip_spaces (remove_token ">>>" (remove_token ":shadow" selector)))))
    eqn:I; [|reflexivity].
  apply includes_trim_end, includes_skip_spaces in I.
  rewrite (remove_gt_clean _ _ (le_n _)) in I. discriminate.
Qed.

(** ** The replaced methods, end to end *)

(** X17.  Soundness of the queue variant, for every selector: each node of
    a sequence [querySelectorAllShadowOptimized] returns is one the selector
    holds of, is not the root and lies strictly below it in the composed
    tree. *)
Theorem queue_variant_sound h selector root res :
  querySelectorAllShadowOptimized h selector root = Ok res ->
  forall x, In x res ->
    native_matches h x selector = Ok true
    /\ same_node x root = false
    /\ In x (composed_descendants root).
Proof.
  intros E x Hx.
  destruct (queue_variant_reports_below h selector root res E x Hx) as (Below & NotRoot & _).
  repeat split; auto.
  unfold querySelectorAllShadowOptimized in E. unfold native_matches.
  destruct (native_valid h selector) eqn:V.
  - rewrite (while_pending_levels h selector root (csize root)) in E by
      (auto; unfold weight; simpl; lia).
    injection E as <-. simpl in Hx. apply filter_In in Hx. destruct Hx as [_ R].
    unfold reported in R. apply andb_true_iff in R. destruct R as [_ R]. now rewrite R.
  - rewrite (while_pending_levels_invalid h selector root (csize root)) in E by
      (auto; unfold weight; simpl; lia).
    destruct (existsb _ _); [discriminate|]. injection E as <-. destruct Hx.
Qed.

Lemma queue_variant_sound_witness :
  native_matches Sample.engine Sample.span ".go" = Ok true
  /\ same_node Sample.span Sample.page = false
  /\ In Sample.span (composed_descendants Sample.page).
Proof.
  apply (queue_variant_sound Sample.engine ".go" Sample.page
           [Sample.widget; Sample.button; Sample.span]).
  - reflexivity.
  - simpl. auto.
Defined.

(** X18.  [querySelectorAll] as replaced by either script, called on a
    document or an element of a tree with pairwise distinct identities:
    under src/unnamed/part_000 every element strictly below the receiver
    that the selector holds of is in the result exactly once; under
    src/querySelectorShadow.js the same is true of a selector with a marker
    and the elements its cleaned form holds of. *)
Theorem replaced_querySelectorAll_complete_once h recv selector x :
  unique_ids recv ->
  is_shadow_root recv = false ->
  In x (composed_descendants recv) ->
  (native_matches h x selector = Ok true ->
   exists res,
     querySelectorAll h Implicit recv selector = Ok res
     /\ count_occ Nat.eq_dec (map nid res) (nid x) = 1)
  /\ (needsShadowSearch selector = true ->
      native_matches h x (cleanSelector selector) = Ok true ->
      exists res,
        querySelectorAll h MarkerGated recv selector = Ok res
        /\ count_occ Nat.eq_dec (map nid res) (nid x) = 1).
Proof.
  intros U R Below.
  unfold querySelectorAll, call_querySelectorAll, prototype_querySelectorAll. rewrite R.
  split.
  - intros Hit.
    destruct (queue_variant_finds_once h selector recv x U Below Hit) as (res & E & Hin & N).
    exists res. split; [assumption|].
    apply NoDup_count_occ'; [assumption|]. now apply in_map.
  - intros -> Hit.
    destruct (queue_variant_finds_once h (cleanSelector selector) recv x U Below Hit)
      as (res & E & Hin & N).
    exists res. split; [assumption|].
    apply NoDup_count_occ'; [assumption|]. now apply in_map.
Qed.

Lemma replaced_querySelectorAll_complete_once_witness :
  (exists res,
      querySelectorAll Sample.engine Implicit Sample.page ".go" = Ok res
      /\ count_occ Nat.eq_dec (map nid res) (nid Sample.span) = 1)
  /\ (exists res,
        querySelectorAll Sample.engine MarkerGated Sample.page ":shadow .go" = Ok res
        /\ count_occ Nat.eq_dec (map nid res) (nid Sample.span) = 1).
Proof.
  assert (In Sample.span (composed_descendants Sample.page)) as Below
    by (simpl; auto 20).
  split.
  - apply (replaced_querySelectorAll_complete_once
             Sample.engine Sample.page ".go" Sample.span
             sample_page_unique_ids eq_refl Below).
    reflexivity.
  - apply (replaced_querySelectorAll_complete_once
             Sample.engine Sample.page ":shadow .go" Sample.span
             sample_page_unique_ids eq_refl Below);
      reflexivity.
Defined.

(** X19.  [querySelector] as replaced by src/querySelectorShadow.js, called
    with a marker on a document or an element that is not itself a shadow
    host: when cleaning leaves no marker, the cleaned selector does not
    depend on the scoping root (no [:scope]) and holds of an element of the
    composed tree below the receiver, at any depth of shadow nesting, the
    call returns an element the cleaned selector holds of. *)
Theorem marker_querySelector_finds_a_match h fuel recv selector x :
  is_shadow_root recv = false ->
  shadowRoot recv = None ->
  shadow_roots_are_fragments recv ->
  needsShadowSearch selector = true ->
  needsShadowSearch (cleanSelector selector) = false ->
  scope_free h (cleanSelector selector) ->
  In x (composed_descendants recv) ->
  native_matches h x (cleanSelector selector) = Ok true ->
  csize recv <= fuel ->
  exists y,
    querySelector h MarkerGated fuel recv selector = Some (Ok (Some y))
    /\ native_matches h y (cleanSelector selector) = Ok true
    /\ In y (composed_descendants recv).
Proof.
  intros R NoShadow W Marker Clean Free Below Hit B.
  unfold querySelector, call_querySelector, prototype_querySelector.
  rewrite R, Marker. set (cleaned := cleanSelector selector) in *.
  assert (native_valid h cleaned = true /\ native_holds h x cleaned = true) as (V & Holds).
  { unfold native_matches in Hit. destruct (native_valid h cleaned); [|discriminate].
    injection Hit as Hit. auto. }
  assert (is_element x = true) as El
    by (unfold native_holds, native_holds_from in Holds; now apply andb_true_iff in Holds).
  assert (searched recv x) as Sx.
  { destruct (composed_searched recv W x Below El) as [S|(sr & SR & _)]; [assumption|].
    congruence. }
  rewrite querySelectorShadow_marker_free by assumption.
  destruct (unpatched_querySelectorShadow_spec h cleaned V Free fuel recv B)
    as [(y & E & Hy & Sy)|(_ & N)].
  - exists y. repeat split; [assumption| |now apply searched_composed].
    unfold native_matches. now rewrite V, Hy.
  - specialize (N x Sx). simpl in N. congruence.
Qed.

Lemma marker_querySelector_finds_a_match_witness :
  exists y,
    querySelector Sample.engine MarkerGated 12 Sample.page ":shadow button"
    = Some (Ok (Some y))
    /\ native_matches Sample.engine y "button" = Ok true
    /\ In y (composed_descendants Sample.page).
Proof.
  apply (marker_querySelector_finds_a_match
           Sample.engine 12 Sample.page ":shadow button" Sample.button).
  - reflexivity.
  - reflexivity.
  - apply sample_page_fragments.
  - reflexivity.
  - reflexivity.
  - intros scope n. reflexivity.
  - simpl. auto 20.
  - reflexivity.
  - vm_compute. lia.
Defined.
